(** * optops: a multi-objective knapsack solved by evolutionary search

    Shallow embedding of [src/optops/__init__.py].

    - Python floats are modelled by exact rationals [Q]; the catalog weights
      are Python integers ([Z]), added into a float accumulator.
    - A Python [set] of item ids is modelled by the duplicate-free list of its
      members in iteration order ([pyset]); [ids] forgets that order.
    - The module-level [random] generator is an explicit state threaded
      through every drawing function (interface [RandomGen]).
    - A raised exception is [None]. *)

From Stdlib Require Import QArith Qminmax Lqa.
From stdpp Require Import base option list gmap sorting.

Set Warnings "-clear-no-such-hyp".

Local Close Scope Q_scope.
Local Open Scope nat_scope.

(** ** Numbers *)

(** [a < b] on floats. *)
Definition Qltb (a b : Q) : bool := negb (Qle_bool b a).

(** ** Module constants (lines 32-35) *)

Definition IND_INIT_SIZE : nat := 5.
Definition MAX_ITEM : nat := 50.
Definition MAX_WEIGHT : Q := 50.
Definition NBR_ITEMS : nat := 20.

(** ** Python sets of item ids *)

(** The members of a set in the order a [for] loop or [tuple(...)] visits
    them.  Python never stores a member twice: every value of this type that
    the program builds satisfies [NoDup]. *)
Abbreviation pyset := (list nat).

(** The id-set an individual denotes. *)
Definition ids (s : pyset) : gset nat := list_to_set s.

(** [s.add(x)] *)
Definition set_add (x : nat) (s : pyset) : pyset :=
  if decide (x ∈ s) then s else s ++ [x].

(** [s.remove(x)]; [KeyError] when [x] is not a member. *)
Definition set_remove (x : nat) (s : pyset) : option pyset :=
  if decide (x ∈ s) then Some (filter (λ y, y ≠ x) s) else None.

(** [s &= t] *)
Definition set_iand (s t : pyset) : pyset := filter (λ y, y ∈ t) s.

(** [s ^= t] *)
Definition set_ixor (s t : pyset) : pyset :=
  filter (λ y, y ∉ t) s ++ filter (λ y, y ∉ s) t.

(** [set(iterable)] *)
Definition set_of (l : list nat) : pyset := foldl (λ s x, set_add x s) [] l.

(** [sorted(tuple(s))] *)
Definition sorted (s : pyset) : list nat := merge_sort le s.

(** ** The item catalog *)

(** [items]: item id to [(weight, value)]. *)
Abbreviation catalog := (gmap nat (Z * Q)).

(** ** Fitness evaluation (lines 61-69) *)

Definition ObjectiveVector : Type := Q * Q.

(** The [for item in individual] loop with its two accumulators; a missing
    key raises [KeyError]. *)
Fixpoint knapsack_sums (items : catalog) (individual : pyset) (weight value : Q)
  : option (Q * Q) :=
  match individual with
  | [] => Some (weight, value)
  | item :: rest =>
      match items !! item with
      | Some (w, v) => knapsack_sums items rest (weight + inject_Z w)%Q (value + v)%Q
      | None => None
      end
  end.

Definition evalKnapsack (items : catalog) (individual : pyset) : option ObjectiveVector :=
  match knapsack_sums items individual 0%Q 0%Q with
  | Some (weight, value) =>
      if bool_decide (MAX_ITEM < length individual) || Qltb MAX_WEIGHT weight
      then Some (10000%Q, 0%Q)
      else Some (weight, value)
  | None => None
  end.

(** ** Dominance *)

(** [creator.create("Fitness", base.Fitness, weights=(-1.0, 1.0))], line 48:
    objective 0 (weight) is minimised, objective 1 (value) is maximised. *)
Definition Fitness_weights : Q * Q := ((-1)%Q, 1%Q).

(** The objective values multiplied by their direction weights: larger is
    better in every component. *)
Definition wvalues (v : ObjectiveVector) : Q * Q :=
  ((v.1 * Fitness_weights.1)%Q, (v.2 * Fitness_weights.2)%Q).

(** Modelled from the spec: the dominance test of the selection library
    ([base.Fitness.dominates], used by [tools.selNSGA2] and
    [tools.ParetoFront]) is not in the source tree.  [x] dominates [y] iff
    [x] is at least as good as [y] in every objective under its direction and
    strictly better in at least one. *)
Definition dominates (x y : ObjectiveVector) : bool :=
  let '(x0, x1) := wvalues x in
  let '(y0, y1) := wvalues y in
  (Qle_bool y0 x0 && Qle_bool y1 x1) && (Qltb y0 x0 || Qltb y1 x1).

(** Equality of objective vectors, as numbers. *)
Definition fitness_eqb (x y : ObjectiveVector) : bool :=
  Qeq_bool x.1 y.1 && Qeq_bool x.2 y.2.

(** Every member is a catalog id. *)
Definition valid_ids (s : pyset) : Prop := ∀ x, x ∈ s → x < NBR_ITEMS.

(** The catalog has an entry for every id below [NBR_ITEMS]. *)
Definition catalog_covers (items : catalog) : Prop :=
  ∀ i, i < NBR_ITEMS → is_Some (items !! i).

(** ** The random generator *)

(** The state of Python's module-level generator with the two primitive
    draws every function of [random] used here is built from: [random()],
    a float in [0, 1), and [_randbelow(n)], an integer in [0, n). *)
Class RandomGen (G : Type) := {
  gen_seed : Z → G;
  gen_random : G → Q * G;
  gen_randbelow : nat → G → nat * G;
  gen_random_unit : ∀ g, (0 <= (gen_random g).1)%Q ∧ ((gen_random g).1 < 1)%Q;
  gen_randbelow_lt : ∀ n g, 0 < n → (gen_randbelow n g).1 < n
}.

(** Computations that draw from the generator and may raise. *)
Definition Rand (G A : Type) : Type := G → option (A * G).

Definition ret {G A} (a : A) : Rand G A := λ g, Some (a, g).

Definition bind {G A B} (m : Rand G A) (k : A → Rand G B) : Rand G B :=
  λ g, match m g with
       | Some (a, g') => k a g'
       | None => None
       end.

Definition raise {G A} : Rand G A := λ _, None.

Definition lift_opt {G A} (o : option A) : Rand G A :=
  match o with
  | Some a => ret a
  | None => raise
  end.

(** [m] returns from every generator state, with a result satisfying [P]. *)
Definition succeeds {G A} (m : Rand G A) (P : A → Prop) : Prop :=
  ∀ g, ∃ a g', m g = Some (a, g') ∧ P a.

Notation "x <~ m ;; k" := (bind m (λ x, k))
  (at level 100, m at next level, right associativity).

Section Generator.
Context {G : Type} `{RandomGen G}.

(** [random.random()] *)
Definition random_random : Rand G Q := λ g, Some (gen_random g).

(** [random.randrange(n)]; [ValueError] on an empty range. *)
Definition random_randrange (n : nat) : Rand G nat :=
  if bool_decide (0 < n) then λ g, Some (gen_randbelow n g) else raise.

(** [random.randint(a, b)] is [randrange(a, b + 1)]. *)
Definition random_randint (a b : Z) : Rand G Z :=
  k <~ random_randrange (Z.to_nat (b + 1 - a));; ret (a + Z.of_nat k)%Z.

(** [random.uniform(a, b)] is [a + (b - a) * random()]. *)
Definition random_uniform (a b : Q) : Rand G Q :=
  u <~ random_random;; ret (a + (b - a) * u)%Q.

(** [random.choice(seq)] is [seq[_randbelow(len(seq))]]; [IndexError] on an
    empty sequence. *)
Definition random_choice {A} (seq : list A) : Rand G A :=
  if bool_decide (0 < length seq)
  then λ g, let '(i, g') := gen_randbelow (length seq) g in
            match seq !! i with Some x => Some (x, g') | None => None end
  else raise.

(** *** The catalog (lines 39-46) *)

(** [for i in range(NBR_ITEMS): items[i] = (randint(1, 10), uniform(0, 100))] *)
Fixpoint fill_items (range : list nat) (items : catalog) : Rand G catalog :=
  match range with
  | [] => ret items
  | i :: range' =>
      w <~ random_randint 1 10;;
      v <~ random_uniform 0 100;;
      fill_items range' (<[i := (w, v)]> items)
  end.

(** The catalog as the module builds it on import, after [random.seed(64)]. *)
Definition module_items : option catalog :=
  fst <$> fill_items (seq 0 NBR_ITEMS) ∅ (gen_seed 64).

(** *** Mutation (lines 81-88) *)

(** The individual is mutated in place through the only reference to it;
    the new contents are returned. *)
Definition mutSet (individual : pyset) : Rand G pyset :=
  u <~ random_random;;
  if Qltb u 0.5 then
    if bool_decide (0 < length individual) then
      x <~ random_choice (sorted individual);;
      lift_opt (set_remove x individual)
    else ret individual
  else
    x <~ random_randrange NBR_ITEMS;;
    ret (set_add x individual).

End Generator.

(** ** Crossover (lines 71-79) *)

(** Both arguments are references to set objects and are updated in place:
    objects live in a store, and the two references may be the same. *)
Abbreviation store := (gmap nat pyset).

Definition cxSet (ind1 ind2 : nat) (h : store) : option ((nat * nat) * store) :=
  temp ← h !! ind1;                              (* temp = set(ind1) *)
  s1 ← h !! ind1;
  s2 ← h !! ind2;
  let h := <[ind1 := set_iand s1 s2]> h in       (* ind1 &= ind2 *)
  s2 ← h !! ind2;
  let h := <[ind2 := set_ixor s2 temp]> h in     (* ind2 ^= temp *)
  Some ((ind1, ind2), h).

(** [toolbox.mate] applied to two freshly cloned parents: the clones are two
    distinct new objects. *)
Definition mate (a b : pyset) : option (pyset * pyset) :=
  '((r1, r2), h) ← cxSet 0 1 (<[1 := b]> (<[0 := a]> ∅));
  c1 ← h !! r1;
  c2 ← h !! r2;
  Some (c1, c2).

(** ** A scripted generator *)

(** A generator that replays a finite script of raw draws (then zeros): it
    gives the primitive draws any chosen values. *)
Definition script_random (g : list nat) : Q * list nat :=
  match g with
  | [] => (0%Q, [])
  | x :: g' => ((Z.of_nat (x mod 1000) # 1000)%Q, g')
  end.

Definition script_randbelow (n : nat) (g : list nat) : nat * list nat :=
  match g with
  | [] => (0, [])
  | x :: g' => (x mod n, g')
  end.

Lemma script_random_unit (g : list nat) :
  (0 <= (script_random g).1)%Q ∧ ((script_random g).1 < 1)%Q.
Proof.
  destruct g as [|x g]; cbn; [split; [apply Qle_refl | reflexivity]|].
  pose proof (Nat.mod_upper_bound x 1000) as Hx.
  unfold Qle, Qlt. cbn. lia.
Qed.

Lemma script_randbelow_lt (n : nat) (g : list nat) :
  0 < n → (script_randbelow n g).1 < n.
Proof.
  intros Hn. destruct g as [|x g]; cbn; [done|].
  apply Nat.mod_upper_bound. lia.
Qed.

#[export] Instance script_gen : RandomGen (list nat) := {|
  gen_seed := λ _, [];
  gen_random := script_random;
  gen_randbelow := script_randbelow;
  gen_random_unit := script_random_unit;
  gen_randbelow_lt := script_randbelow_lt
|}.

(** ** Individuals with their cached fitness *)

(** The fitness attached to an individual is valid only after evaluation
    and is deleted by variation. *)
Inductive Fitness : Type :=
  | Unevaluated
  | Evaluated (v : ObjectiveVector).

Record Individual := { genome : pyset; fitness : Fitness }.

(** An individual whose fitness is valid. *)
Record Scored := { member : pyset; score : ObjectiveVector }.

(** ** Structure initialisers (lines 54-59) *)

Section Init.
Context {G : Type} `{RandomGen G}.

(** [tools.initRepeat(list, func, n)]: [func] is called [n] times, in
    order. *)
Fixpoint initRepeat {A} (func : Rand G A) (n : nat) : Rand G (list A) :=
  match n with
  | 0 => ret []
  | S n' => x <~ func;; xs <~ initRepeat func n';; ret (x :: xs)
  end.

(** [toolbox.attr_item] *)
Definition attr_item : Rand G nat := random_randrange NBR_ITEMS.

(** [toolbox.individual]: a set made of [IND_INIT_SIZE] drawn ids. *)
Definition toolbox_individual : Rand G Individual :=
  l <~ initRepeat attr_item IND_INIT_SIZE;;
  ret {| genome := set_of l; fitness := Unevaluated |}.

(** [toolbox.population(n=...)]; [range] of a non-positive count is empty. *)
Definition toolbox_population (n : Z) : Rand G (list Individual) :=
  initRepeat toolbox_individual (Z.to_nat n).

End Init.

(** ** The Pareto archive *)

(** Modelled from the spec: [tools.ParetoFront] is library code outside the
    source tree.  A candidate dominated by a current member is discarded;
    otherwise every member it dominates is removed and the candidate is
    inserted, unless a member with an equal objective vector exists. *)
Definition archive_insert (archive : list Scored) (candidate : Scored) : list Scored :=
  if existsb (λ m, dominates (score m) (score candidate)) archive then archive
  else
    let kept := filter (λ m, dominates (score candidate) (score m) = false) archive in
    if existsb (λ m, fitness_eqb (score m) (score candidate)) kept then kept
    else kept ++ [candidate].

Definition ParetoFront_update (archive candidates : list Scored) : list Scored :=
  foldl archive_insert archive candidates.

(** No member of the archive dominates another. *)
Definition nondominated (archive : list Scored) : Prop :=
  ∀ m m', m ∈ archive → m' ∈ archive → dominates (score m) (score m') = false.

(** Some member of the archive dominates [c]. *)
Definition dominated_by (archive : list Scored) (c : Scored) : Prop :=
  ∃ m, m ∈ archive ∧ dominates (score m) (score c) = true.

(** Some member of the archive dominates [c] or has its objective vector. *)
Definition covered_by (archive : list Scored) (c : Scored) : Prop :=
  ∃ m, m ∈ archive ∧
       (dominates (score m) (score c) = true ∨
        fitness_eqb (score m) (score c) = true).

(** ** Statistics and the logbook *)

(** One generation record.  The standard deviation of the spec's record
    is a square root and has no rational value; it is left out. *)
Record GenerationRecord := {
  rec_gen : nat;
  rec_avg : ObjectiveVector;
  rec_min : ObjectiveVector;
  rec_max : ObjectiveVector
}.

Definition vec_fold (f : Q → Q → Q) (v : ObjectiveVector) (vs : list ObjectiveVector)
  : ObjectiveVector :=
  foldl (λ acc u, (f acc.1 u.1, f acc.2 u.2)) v vs.

(** Modelled from the spec: the statistics recorder ([tools.Statistics]
    with numpy reductions along axis 0) is library code.  Each field is
    computed per objective over the population's objective vectors; the
    reductions are undefined on an empty population. *)
Definition stats_compile (gen : nat) (population : list Scored) : option GenerationRecord :=
  match map score population with
  | [] => None
  | v :: vs =>
      let n := inject_Z (Z.of_nat (length (v :: vs))) in
      let total := vec_fold Qplus v vs in
      Some {| rec_gen := gen;
              rec_avg := ((total.1 / n)%Q, (total.2 / n)%Q);
              rec_min := vec_fold Qmin v vs;
              rec_max := vec_fold Qmax v vs |}
  end.

(** [seq[i]] with Python's negative indices; [IndexError] out of range. *)
Definition py_index {A} (l : list A) (i : Z) : option A :=
  if bool_decide (0 ≤ i)%Z then l !! Z.to_nat i
  else if bool_decide (- Z.of_nat (length l) ≤ i)%Z
       then l !! Z.to_nat (Z.of_nat (length l) + i)
       else None.

(** ** The evolution loop *)

Record Config := {
  NGEN : Z;
  MU : Z;
  LAMBDA : Z;
  CXPB : Q;
  MUTPB : Q
}.

Record EvoState := {
  population : list Scored;
  halloffame : list Scored;
  logbook : list GenerationRecord
}.

Section Evolution.
Context {G : Type} `{RandomGen G}.

(** [tools.selNSGA2], registered as [toolbox.select] (line 93): library
    code, taken as a parameter. *)
Variable selNSGA2 : list Scored → nat → list Scored.

(** The module-level catalog. *)
Variable items : catalog.

(** Fitness is computed for a stale individual and reused otherwise. *)
Definition evaluate_one (ind : Individual) : option Scored :=
  match fitness ind with
  | Evaluated v => Some {| member := genome ind; score := v |}
  | Unevaluated =>
      v ← evalKnapsack items (genome ind);
      Some {| member := genome ind; score := v |}
  end.

Definition evaluate_stale (inds : list Individual) : option (list Scored) :=
  mapM evaluate_one inds.

(** Modelled from the spec: offspring production ([algorithms.varOr]) is
    library code.  One trial draws one number: below [cxpb], two parents
    drawn with replacement are cloned and mated and the first child is kept;
    otherwise below [cxpb + mutpb], one cloned parent is mutated; otherwise
    one parent is copied with its fitness. *)
Definition variation_trial (pop : list Scored) (cxpb mutpb : Q) : Rand G Individual :=
  op_choice <~ random_random;;
  if Qltb op_choice cxpb then
    p1 <~ random_choice pop;;
    p2 <~ random_choice pop;;
    children <~ lift_opt (mate (member p1) (member p2));;
    ret {| genome := children.1; fitness := Unevaluated |}
  else if Qltb op_choice (cxpb + mutpb) then
    p <~ random_choice pop;;
    mutant <~ mutSet (member p);;
    ret {| genome := mutant; fitness := Unevaluated |}
  else
    p <~ random_choice pop;;
    ret {| genome := member p; fitness := Evaluated (score p) |}.

Definition varOr (pop : list Scored) (lambda_ : Z) (cxpb mutpb : Q)
  : Rand G (list Individual) :=
  initRepeat (variation_trial pop cxpb mutpb) (Z.to_nat lambda_).

(** Modelled from the spec: one generation of the (mu + lambda) loop
    ([algorithms.eaMuPlusLambda] is library code): vary, evaluate the stale
    offspring, select [mu] survivors among parents and offspring, update the
    archive with the new population, append the generation's record. *)
Definition generation_step (mu lambda_ : Z) (cxpb mutpb : Q) (gen : nat) (st : EvoState)
  : Rand G EvoState :=
  offspring <~ varOr (population st) lambda_ cxpb mutpb;;
  offspring <~ lift_opt (evaluate_stale offspring);;
  let pop := selNSGA2 (population st ++ offspring) (Z.to_nat mu) in
  let hof := ParetoFront_update (halloffame st) pop in
  record <~ lift_opt (stats_compile gen pop);;
  ret {| population := pop; halloffame := hof; logbook := logbook st ++ [record] |}.

Fixpoint generations (mu lambda_ : Z) (cxpb mutpb : Q) (gens : list nat) (st : EvoState)
  : Rand G EvoState :=
  match gens with
  | [] => ret st
  | gen :: gens' =>
      st' <~ generation_step mu lambda_ cxpb mutpb gen st;;
      generations mu lambda_ cxpb mutpb gens' st'
  end.

(** Modelled from the spec: the state machine Init, then [ngen] generation
    steps, then Done.  Init evaluates the initial population, seeds the
    archive and records generation 0. *)
Definition eaMuPlusLambda (pop : list Individual) (mu lambda_ : Z) (cxpb mutpb : Q)
    (ngen : Z) (hof : list Scored) : Rand G EvoState :=
  pop <~ lift_opt (evaluate_stale pop);;
  let hof := ParetoFront_update hof pop in
  record <~ lift_opt (stats_compile 0 pop);;
  generations mu lambda_ cxpb mutpb (seq 1 (Z.to_nat ngen))
    {| population := pop; halloffame := hof; logbook := [record] |}.

End Evolution.

(** The population has [mu] members, all made of catalog ids. *)
Definition population_ok (mu : Z) (st : EvoState) : Prop :=
  length (population st) = Z.to_nat mu ∧
  Forall (λ sc, valid_ids (member sc)) (population st).

(** What the loop relies on from the selection: [k] individuals out of a
    pool of at least [k], all taken from the pool. *)
Definition select_contract (select : list Scored → nat → list Scored) : Prop :=
  (∀ pool k, k ≤ length pool → length (select pool k) = k) ∧
  (∀ pool k x, x ∈ select pool k → x ∈ pool).

(** ** The run (lines 119-156) *)

(** What a run hands to its collaborators: the logged parameters, the two
    logged metrics, the series given to the plot, and the final state. *)
Record RunOutput := {
  out_params : Config;
  out_metrics : Q * Q;
  out_plot : list nat * list ObjectiveVector;
  out_state : EvoState
}.

(** [gen, max = logbook.select("gen", "max")], then the two metrics
    [max[NGEN][0]] and [max[NGEN][1]] and the series given to the plot
    (lines 151-156). *)
Definition main_finish (cfg : Config) (st : EvoState) : option RunOutput :=
  let gen := map rec_gen (logbook st) in
  let max := map rec_max (logbook st) in
  m ← py_index max (NGEN cfg);
  Some {| out_params := cfg;
          out_metrics := (m.1, m.2);
          out_plot := (gen, max);
          out_state := st |}.

Section Run.
Context {G : Type} `{RandomGen G}.

(** [algorithms.eaMuPlusLambda]: library code.  It receives the toolbox
    (here the catalog its [evaluate] reads), the population, the five
    parameters and the archive, and draws from the generator. *)
Variable algorithms_eaMuPlusLambda :
  catalog → list Individual → Z → Z → Q → Q → Z → list Scored → Rand G EvoState.

(** The body of [main] with its five local constants as [cfg].  The catalog
    was built when the module was imported. *)
Definition main_with (cfg : Config) : option RunOutput :=
  items ← module_items;
  let g := gen_seed 64 in                                   (* random.seed(64) *)
  '(pop, g) ← toolbox_population (MU cfg) g;
  let hof := [] in                                          (* tools.ParetoFront() *)
  '(st, _) ← algorithms_eaMuPlusLambda items pop (MU cfg) (LAMBDA cfg)
               (CXPB cfg) (MUTPB cfg) (NGEN cfg) hof g;
  main_finish cfg st.

(** The constants [main] fixes (lines 128-132). *)
Definition main_config : Config :=
  {| NGEN := 100; MU := 50; LAMBDA := 100; CXPB := 0.7; MUTPB := 0.2 |}.

Definition main : option RunOutput := main_with main_config.

End Run.

(** A selection that keeps the first [k] individuals of the pool. *)
Definition select_first (pool : list Scored) (k : nat) : list Scored := take k pool.

(** A configuration the spec accepts. *)
Definition valid_config (cfg : Config) : Prop :=
  (0 < MU cfg)%Z ∧ (0 < LAMBDA cfg)%Z ∧ (0 < NGEN cfg)%Z ∧ (CXPB cfg + MUTPB cfg <= 1)%Q.

(** A catalog of twenty items of weight 10 and value 1. *)
Definition heavy_items : catalog :=
  list_to_map (map (λ i, (i, (10%Z, 1%Q))) (seq 0 NBR_ITEMS)).

(** The catalog weight of an id; an unknown id weighs nothing. *)
Definition item_weight (items : catalog) (i : nat) : Z :=
  match items !! i with
  | Some (w, _) => w
  | None => 0%Z
  end.

(** The integer sum of the catalog weights of the members. *)
Definition total_weight (items : catalog) (s : pyset) : Z :=
  foldr (λ i acc, (item_weight items i + acc)%Z) 0%Z s.

(** Every entry is what lines 45-46 draw: a weight in 1 .. 10 and a value
    in [0, 100). *)
Definition catalog_in_range (items : catalog) : Prop :=
  ∀ i w v, items !! i = Some (w, v) →
    (1 ≤ w ≤ 10)%Z ∧ (0 <= v)%Q ∧ (v < 100)%Q.

(** * Properties *)

(** ** Comparisons on rationals *)

Lemma Qltb_lt (a b : Q) : Qltb a b = true ↔ (a < b)%Q.
Proof.
  unfold Qltb. rewrite negb_true_iff, <- not_true_iff_false, Qle_bool_iff.
  split; [apply Qnot_le_lt | apply Qlt_not_le].
Qed.

Lemma Qltb_ge (a b : Q) : Qltb a b = false ↔ (b <= a)%Q.
Proof.
  unfold Qltb. rewrite negb_false_iff. apply Qle_bool_iff.
Qed.

Lemma dominates_spec (x y : ObjectiveVector) :
  dominates x y = true ↔
  (x.1 <= y.1 ∧ y.2 <= x.2 ∧ (x.1 < y.1 ∨ y.2 < x.2))%Q.
Proof.
  destruct x as [xw xv], y as [yw yv]. unfold dominates, wvalues, Fitness_weights.
  cbn [fst snd].
  rewrite !andb_true_iff, orb_true_iff, !Qle_bool_iff, !Qltb_lt.
  split.
  - intros [[? ?] [?|?]]; lra.
  - intros (? & ? & [?|?]); lra.
Qed.

Lemma dominates_irrefl (x : ObjectiveVector) : dominates x x = false.
Proof.
  apply not_true_iff_false. rewrite dominates_spec. intros (_ & _ & [?|?]); lra.
Qed.

Lemma dominates_asym (x y : ObjectiveVector) :
  dominates x y = true → dominates y x = false.
Proof.
  intros Hxy. apply not_true_iff_false. revert Hxy. rewrite !dominates_spec.
  intros (? & ? & [?|?]) (? & ? & _); lra.
Qed.

Lemma dominates_trans (x y z : ObjectiveVector) :
  dominates x y = true → dominates y z = true → dominates x z = true.
Proof.
  rewrite !dominates_spec.
  intros (? & ? & Hs) (? & ? & Hs'); lra.
Qed.

(** C2.  Dominance, with weight minimised and value maximised, holds exactly
    when the left vector is at least as good in both objectives and strictly
    better in one, and it is a strict partial order: irreflexive, asymmetric
    and transitive. *)
Theorem dominance_strict_partial_order :
  (∀ x y : ObjectiveVector,
     dominates x y = true ↔
     (x.1 <= y.1 ∧ y.2 <= x.2 ∧ (x.1 < y.1 ∨ y.2 < x.2))%Q) ∧
  (∀ x, dominates x x = false) ∧
  (∀ x y, dominates x y = true → dominates y x = false) ∧
  (∀ x y z, dominates x y = true → dominates y z = true → dominates x z = true).
Proof.
  split; [exact dominates_spec|].
  split; [exact dominates_irrefl|].
  split; [exact dominates_asym | exact dominates_trans].
Qed.

(** ** Fitness evaluation *)

Lemma evalKnapsack_penalty (items : catalog) (individual : pyset) (weight value : Q) :
  knapsack_sums items individual 0 0 = Some (weight, value) →
  MAX_ITEM < length individual ∨ (MAX_WEIGHT < weight)%Q →
  evalKnapsack items individual = Some (10000%Q, 0%Q).
Proof.
  intros Hsum Hover. unfold evalKnapsack. rewrite Hsum.
  destruct Hover as [Hn | Hw].
  - by rewrite bool_decide_eq_true_2.
  - apply Qltb_lt in Hw. rewrite Hw. by rewrite orb_true_r.
Qed.

(** C1.  An individual with more than [MAX_ITEM] items, or whose summed
    catalog weight exceeds [MAX_WEIGHT], evaluates to the sentinel
    (10000, 0); the empty individual's vector (0, 0) dominates the sentinel;
    the empty individual evaluates to (0, 0). *)
Theorem evalKnapsack_sentinel (items : catalog) (individual : pyset) (weight value : Q) :
  knapsack_sums items individual 0 0 = Some (weight, value) →
  MAX_ITEM < length individual ∨ (MAX_WEIGHT < weight)%Q →
  evalKnapsack items individual = Some (10000%Q, 0%Q) ∧
  dominates (0%Q, 0%Q) (10000%Q, 0%Q) = true ∧
  evalKnapsack items [] = Some (0%Q, 0%Q).
Proof.
  intros Hsum Hover. split; [by eapply evalKnapsack_penalty|].
  split; reflexivity.
Qed.

Lemma evalKnapsack_sentinel_witness :
  evalKnapsack heavy_items [0; 1; 2; 3; 4; 5] = Some (10000%Q, 0%Q) ∧
  dominates (0%Q, 0%Q) (10000%Q, 0%Q) = true ∧
  evalKnapsack heavy_items [] = Some (0%Q, 0%Q).
Proof.
  apply (evalKnapsack_sentinel heavy_items [0; 1; 2; 3; 4; 5] 60 6).
  - vm_compute. reflexivity.
  - right. vm_compute. reflexivity.
Defined.

Example evalKnapsack_feasible :
  evalKnapsack heavy_items [0; 1; 2] = Some (30%Q, 3%Q).
Proof. reflexivity. Qed.

Example evalKnapsack_unknown_id : evalKnapsack heavy_items [0; 20] = None.
Proof. reflexivity. Qed.

(** ** Python sets *)

Lemma elem_of_ids (x : nat) (s : pyset) : x ∈ ids s ↔ x ∈ s.
Proof. unfold ids. apply elem_of_list_to_set. Qed.

Lemma ids_perm (s t : pyset) : NoDup s → NoDup t → ids s = ids t → s ≡ₚ t.
Proof.
  intros Hs Ht Heq. apply NoDup_Permutation; [done..|].
  intros x. by rewrite <- !elem_of_ids, Heq.
Qed.

Lemma size_ids (s : pyset) : NoDup s → size (ids s) = length s.
Proof. intros Hs. unfold ids. by apply size_list_to_set. Qed.

Lemma ids_set_add (x : nat) (s : pyset) : ids (set_add x s) = ids s ∪ {[x]}.
Proof.
  apply set_eq. intros y. unfold set_add. case_decide as Hx.
  - rewrite elem_of_union, elem_of_singleton, !elem_of_ids. naive_solver.
  - rewrite elem_of_union, elem_of_singleton, !elem_of_ids, elem_of_app, list_elem_of_singleton.
    done.
Qed.

Lemma NoDup_set_add (x : nat) (s : pyset) : NoDup s → NoDup (set_add x s).
Proof.
  intros Hs. unfold set_add. case_decide as Hx; [done|].
  apply NoDup_app. split_and!; [done| |apply NoDup_singleton].
  intros y Hy ->%list_elem_of_singleton. done.
Qed.

Lemma set_add_member (x : nat) (s : pyset) : x ∈ s → set_add x s = s.
Proof. intros Hx. unfold set_add. by rewrite decide_True. Qed.

Lemma ids_set_iand (s t : pyset) : ids (set_iand s t) = ids s ∩ ids t.
Proof.
  apply set_eq. intros y. unfold set_iand.
  rewrite elem_of_intersection, !elem_of_ids, list_elem_of_filter. naive_solver.
Qed.

Lemma ids_set_ixor (s t : pyset) :
  ids (set_ixor s t) = (ids s ∖ ids t) ∪ (ids t ∖ ids s).
Proof.
  apply set_eq. intros y. unfold set_ixor.
  rewrite elem_of_union, !elem_of_difference, !elem_of_ids, elem_of_app,
    !list_elem_of_filter.
  naive_solver.
Qed.

Lemma NoDup_set_iand (s t : pyset) : NoDup s → NoDup (set_iand s t).
Proof. intros Hs. by apply NoDup_filter. Qed.

Lemma NoDup_set_ixor (s t : pyset) : NoDup s → NoDup t → NoDup (set_ixor s t).
Proof.
  intros Hs Ht. unfold set_ixor. apply NoDup_app. split_and!.
  - by apply NoDup_filter.
  - intros y [_ Hy]%list_elem_of_filter [Hy' _]%list_elem_of_filter. done.
  - by apply NoDup_filter.
Qed.

Lemma filter_all {A} (P : A → Prop) `{∀ x, Decision (P x)} (l : list A) :
  Forall P l → filter P l = l.
Proof.
  induction 1 as [|x l Hx _ IH]; [done|].
  rewrite filter_cons_True by done. by rewrite IH.
Qed.

Lemma filter_none {A} (P : A → Prop) `{∀ x, Decision (P x)} (l : list A) :
  Forall (λ x, ¬ P x) l → filter P l = [].
Proof.
  induction 1 as [|x l Hx _ IH]; [done|].
  by rewrite filter_cons_False.
Qed.

Lemma set_iand_self (s : pyset) : set_iand s s = s.
Proof. unfold set_iand. apply filter_all, Forall_forall. done. Qed.

Lemma set_ixor_self (s : pyset) : set_ixor s s = [].
Proof.
  unfold set_ixor. rewrite filter_none; [done|].
  apply Forall_forall. intros x Hx Hn. done.
Qed.

Lemma length_remove_member (x : nat) (s : pyset) :
  NoDup s → x ∈ s → S (length (filter (λ y, y ≠ x) s)) = length s.
Proof.
  induction 1 as [|y s Hy Hs IH]; intros Hx; [by apply elem_of_nil in Hx|].
  destruct (decide (y = x)) as [->|Hne].
  - rewrite filter_cons_False by naive_solver. cbn. f_equal. f_equal.
    apply filter_all, Forall_forall. intros z Hz ->. done.
  - rewrite filter_cons_True by done. cbn. f_equal. apply IH.
    apply elem_of_cons in Hx as [->|Hx]; done.
Qed.

Lemma ids_set_remove (x : nat) (s s' : pyset) :
  set_remove x s = Some s' → ids s' = ids s ∖ {[x]}.
Proof.
  unfold set_remove. case_decide; [|done]. intros [= <-].
  apply set_eq. intros y.
  rewrite elem_of_difference, elem_of_singleton, !elem_of_ids, list_elem_of_filter.
  naive_solver.
Qed.

(** ** Sorting the members *)

Lemma sorted_perm (s : pyset) : sorted s ≡ₚ s.
Proof. apply merge_sort_Permutation. Qed.

Lemma sorted_length (s : pyset) : length (sorted s) = length s.
Proof. by rewrite sorted_perm. Qed.

(** The sorted sequence depends on the members only, not on their order. *)
Lemma sorted_order_free (s t : pyset) : s ≡ₚ t → sorted s = sorted t.
Proof.
  intros Hst. apply (Sorted_unique le).
  - apply Sorted_merge_sort. apply _.
  - apply Sorted_merge_sort. apply _.
  - by rewrite !sorted_perm.
Qed.

(** ** Crossover *)

(** On two distinct objects, the first becomes the intersection and the
    second the symmetric difference with the snapshot of the first. *)
Lemma cxSet_distinct (h : store) (ind1 ind2 : nat) (a b : pyset) :
  ind1 ≠ ind2 → h !! ind1 = Some a → h !! ind2 = Some b →
  cxSet ind1 ind2 h
  = Some ((ind1, ind2), <[ind2 := set_ixor b a]> (<[ind1 := set_iand a b]> h)).
Proof.
  intros Hne Ha Hb. unfold cxSet. rewrite Ha, Hb. cbn.
  rewrite lookup_insert_ne by done. rewrite Hb. done.
Qed.

(** On one object passed twice, the object ends up empty. *)
Lemma cxSet_same_object (h : store) (ind : nat) (a : pyset) :
  h !! ind = Some a →
  cxSet ind ind h = Some ((ind, ind), <[ind := []]> h).
Proof.
  intros Ha. unfold cxSet. rewrite Ha. cbn.
  rewrite lookup_insert_eq. cbn.
  by rewrite set_iand_self, set_ixor_self, insert_insert_eq.
Qed.

Lemma mate_children (a b : pyset) : mate a b = Some (set_iand a b, set_ixor b a).
Proof.
  unfold mate. rewrite (cxSet_distinct _ 0 1 a b); [|done..].
  cbn [mbind option_bind].
  rewrite (lookup_insert_ne _ 1 0) by done. rewrite !lookup_insert_eq. done.
Qed.

Example cxSet_trace :
  (cxSet 0 1 (<[1 := [2; 3; 4]]> (<[0 := [1; 2; 3]]> ∅))
     ≫= λ '(_, h), Some (h !! 0, h !! 1))
  = Some (Some [2; 3], Some [4; 1]).
Proof. reflexivity. Qed.

Example cxSet_same_object_trace :
  (cxSet 0 0 (<[0 := [1; 2; 3]]> ∅) ≫= λ '(_, h), Some (h !! 0))
  = Some (Some []).
Proof. reflexivity. Qed.

(** C4.  Crossover on two parent objects holding [a] and [b] replaces the
    first by the intersection of [a] and [b] and the second by the symmetric
    difference of the original [a] and [b]; both children are subsets of the
    union of the parents. *)
Theorem cxSet_children (h : store) (ind1 ind2 : nat) (a b : pyset) :
  ind1 ≠ ind2 → h !! ind1 = Some a → h !! ind2 = Some b →
  ∃ (h' : store) (childA childB : pyset),
    cxSet ind1 ind2 h = Some ((ind1, ind2), h') ∧
    h' !! ind1 = Some childA ∧ h' !! ind2 = Some childB ∧
    ids childA = ids a ∩ ids b ∧
    ids childB = (ids a ∖ ids b) ∪ (ids b ∖ ids a) ∧
    ids childA ⊆ ids a ∪ ids b ∧ ids childB ⊆ ids a ∪ ids b.
Proof.
  intros Hne Ha Hb.
  exists (<[ind2 := set_ixor b a]> (<[ind1 := set_iand a b]> h)),
    (set_iand a b), (set_ixor b a).
  split; [by apply cxSet_distinct|].
  split; [by rewrite lookup_insert_ne, lookup_insert_eq|].
  split; [by rewrite lookup_insert_eq|].
  rewrite ids_set_iand, ids_set_ixor. set_solver.
Qed.

Lemma cxSet_children_witness :
  ∃ (h' : store) (childA childB : pyset),
    cxSet 0 1 (<[1 := [2; 3; 4]]> (<[0 := [1; 2; 3]]> ∅)) = Some ((0, 1), h') ∧
    h' !! 0 = Some childA ∧ h' !! 1 = Some childB ∧
    ids childA = ids [1; 2; 3] ∩ ids [2; 3; 4] ∧
    ids childB = (ids [1; 2; 3] ∖ ids [2; 3; 4]) ∪ (ids [2; 3; 4] ∖ ids [1; 2; 3]) ∧
    ids childA ⊆ ids [1; 2; 3] ∪ ids [2; 3; 4] ∧
    ids childB ⊆ ids [1; 2; 3] ∪ ids [2; 3; 4].
Proof.
  apply (cxSet_children (<[1 := [2; 3; 4]]> (<[0 := [1; 2; 3]]> ∅)) 0 1).
  - lia.
  - reflexivity.
  - reflexivity.
Defined.

(** C10.  The two children of a crossover are disjoint, their union is the
    union of the parents, and their sizes add up to the size of that union,
    which is at most the sum of the parents' sizes. *)
Theorem cxSet_partition (h : store) (ind1 ind2 : nat) (a b : pyset) :
  ind1 ≠ ind2 → h !! ind1 = Some a → h !! ind2 = Some b → NoDup a → NoDup b →
  ∃ (h' : store) (childA childB : pyset),
    cxSet ind1 ind2 h = Some ((ind1, ind2), h') ∧
    h' !! ind1 = Some childA ∧ h' !! ind2 = Some childB ∧
    NoDup childA ∧ NoDup childB ∧
    ids childA ## ids childB ∧
    ids childA ∪ ids childB = ids a ∪ ids b ∧
    length childA + length childB = size (ids a ∪ ids b) ∧
    length childA + length childB ≤ length a + length b.
Proof.
  intros Hne Ha Hb Hnda Hndb.
  exists (<[ind2 := set_ixor b a]> (<[ind1 := set_iand a b]> h)),
    (set_iand a b), (set_ixor b a).
  assert (NoDup (set_iand a b)) as HndA by by apply NoDup_set_iand.
  assert (NoDup (set_ixor b a)) as HndB by by apply NoDup_set_ixor.
  assert (ids (set_iand a b) ## ids (set_ixor b a)) as Hdisj.
  { rewrite ids_set_iand, ids_set_ixor. set_solver. }
  assert (ids (set_iand a b) ∪ ids (set_ixor b a) = ids a ∪ ids b) as Hcover.
  { rewrite ids_set_iand, ids_set_ixor. apply set_eq. intros x.
    destruct (decide (x ∈ ids a)), (decide (x ∈ ids b)); set_solver. }
  assert (length (set_iand a b) + length (set_ixor b a) = size (ids a ∪ ids b)) as Hsize.
  { rewrite <- Hcover, size_union by done. by rewrite !size_ids. }
  split; [by apply cxSet_distinct|].
  split; [by rewrite lookup_insert_ne, lookup_insert_eq|].
  split; [by rewrite lookup_insert_eq|].
  split_and!; try done.
  rewrite Hsize, <- (size_ids a), <- (size_ids b) by done.
  rewrite size_union_alt. apply Nat.add_le_mono_l, subseteq_size. set_solver.
Qed.

Lemma cxSet_partition_witness :
  ∃ (h' : store) (childA childB : pyset),
    cxSet 0 1 (<[1 := [2; 3; 4]]> (<[0 := [1; 2; 3]]> ∅)) = Some ((0, 1), h') ∧
    h' !! 0 = Some childA ∧ h' !! 1 = Some childB ∧
    NoDup childA ∧ NoDup childB ∧
    ids childA ## ids childB ∧
    ids childA ∪ ids childB = ids [1; 2; 3] ∪ ids [2; 3; 4] ∧
    length childA + length childB = size (ids [1; 2; 3] ∪ ids [2; 3; 4]) ∧
    length childA + length childB ≤ length [1; 2; 3] + length [2; 3; 4].
Proof.
  apply (cxSet_partition (<[1 := [2; 3; 4]]> (<[0 := [1; 2; 3]]> ∅)) 0 1).
  - lia.
  - reflexivity.
  - reflexivity.
  - apply (bool_decide_unpack (NoDup [1; 2; 3])). vm_compute. exact I.
  - apply (bool_decide_unpack (NoDup [2; 3; 4])). vm_compute. exact I.
Defined.

(** ** Mutation *)

Section MutationProps.
Context {G : Type} `{RandomGen G}.

Lemma random_choice_member {A} (seq : list A) (g : G) :
  seq ≠ [] →
  ∃ x, seq !! (gen_randbelow (length seq) g).1 = Some x ∧
       random_choice seq g = Some (x, (gen_randbelow (length seq) g).2).
Proof.
  intros Hne. assert (0 < length seq) as Hlen by (destruct seq; [done|cbn; lia]).
  pose proof (gen_randbelow_lt (length seq) g Hlen) as Hi.
  unfold random_choice. rewrite bool_decide_eq_true_2 by done.
  destruct (gen_randbelow (length seq) g) as [i g'] eqn:Hdraw. cbn in *.
  destruct (lookup_lt_is_Some_2 seq i Hi) as [x Hx].
  exists x. by rewrite Hx.
Qed.

(** The coin selects "add": one id below [NBR_ITEMS] is added. *)
Lemma mutSet_add (individual : pyset) (g : G) :
  Qltb (gen_random g).1 0.5 = false →
  mutSet individual g
  = Some (set_add (gen_randbelow NBR_ITEMS (gen_random g).2).1 individual,
          (gen_randbelow NBR_ITEMS (gen_random g).2).2).
Proof.
  intros Hcoin. unfold mutSet, bind, random_random.
  destruct (gen_random g) as [u g1]. cbn in *. rewrite Hcoin.
  unfold random_randrange. rewrite bool_decide_eq_true_2 by (unfold NBR_ITEMS; lia).
  by destruct (gen_randbelow NBR_ITEMS g1).
Qed.

(** The coin selects "remove" on an empty individual: nothing happens. *)
Lemma mutSet_skip (g : G) :
  Qltb (gen_random g).1 0.5 = true →
  mutSet [] g = Some ([], (gen_random g).2).
Proof.
  intros Hcoin. unfold mutSet, bind, random_random.
  destruct (gen_random g) as [u g1]. cbn in *. by rewrite Hcoin.
Qed.

(** The coin selects "remove" on a non-empty individual: the victim is the
    drawn position of the sorted members. *)
Lemma mutSet_remove (individual : pyset) (g : G) :
  Qltb (gen_random g).1 0.5 = true → individual ≠ [] →
  ∃ x, sorted individual
         !! (gen_randbelow (length individual) (gen_random g).2).1 = Some x ∧
       x ∈ individual ∧
       mutSet individual g
       = Some (filter (λ y, y ≠ x) individual,
               (gen_randbelow (length individual) (gen_random g).2).2).
Proof.
  intros Hcoin Hne. unfold mutSet, bind, random_random.
  destruct (gen_random g) as [u g1]. cbn in *. rewrite Hcoin.
  rewrite bool_decide_eq_true_2 by (destruct individual; [done|cbn; lia]).
  destruct (random_choice_member (sorted individual) g1) as (x & Hx & Hch).
  { intros Hnil. apply Hne. apply Permutation_nil_r. rewrite <- Hnil.
    symmetry. apply sorted_perm. }
  rewrite sorted_length in Hx, Hch. rewrite Hch.
  assert (x ∈ individual) as Hin.
  { rewrite <- (sorted_perm individual). by eapply list_elem_of_lookup_2. }
  exists x. split_and!; [done..|].
  unfold set_remove. by rewrite decide_True.
Qed.

End MutationProps.

(** Coin 0.1: remove; position 1 of the sorted members [1; 2; 3] is 2. *)
Example mutSet_remove_trace :
  mutSet (G := list nat) [3; 1; 2] [100; 1] = Some ([3; 1], []).
Proof. reflexivity. Qed.

(** Coin 0.7: add; the drawn id is 47 mod 20 = 7. *)
Example mutSet_add_trace :
  mutSet (G := list nat) [3; 1; 2] [700; 47] = Some ([3; 1; 2; 7], []).
Proof. reflexivity. Qed.

Section MutationClaims.
Context {G : Type} `{RandomGen G}.

(** C6, as the code has it.  On an empty individual the coin decides: below
    0.5 the removal is skipped and the individual stays empty; otherwise one
    id below [NBR_ITEMS] is added and the result has exactly one member. *)
Theorem mutSet_empty (g : G) :
  (((gen_random g).1 < 0.5)%Q ∧ mutSet [] g = Some ([], (gen_random g).2)) ∨
  ((0.5 <= (gen_random g).1)%Q ∧
   ∃ x g', x < NBR_ITEMS ∧ mutSet [] g = Some ([x], g') ∧ length [x] = 1).
Proof.
  destruct (Qltb (gen_random g).1 0.5) eqn:Hcoin.
  - left. split; [by apply Qltb_lt | by apply mutSet_skip].
  - right. split; [by apply Qltb_ge|].
    exists (gen_randbelow NBR_ITEMS (gen_random g).2).1,
      (gen_randbelow NBR_ITEMS (gen_random g).2).2.
    split; [apply gen_randbelow_lt; unfold NBR_ITEMS; lia|].
    split; [by rewrite mutSet_add | done].
Qed.

(** C8.  Two individuals with the same members, stored in any order,
    mutate from the same generator state to individuals with the same
    members, and leave the generator in the same state. *)
Theorem mutSet_order_free (s t : pyset) (g : G) :
  NoDup s → NoDup t → ids s = ids t →
  ∃ (s' t' : pyset) (g' : G),
    mutSet s g = Some (s', g') ∧ mutSet t g = Some (t', g') ∧ ids s' = ids t'.
Proof.
  intros Hs Ht Hids. pose proof (ids_perm s t Hs Ht Hids) as Hperm.
  destruct (Qltb (gen_random g).1 0.5) eqn:Hcoin.
  - destruct (decide (s = [])) as [->|Hne].
    + apply Permutation_nil_l in Hperm as <-.
      eexists _, _, _. split; [by apply mutSet_skip|]. split; [by apply mutSet_skip|done].
    + assert (t ≠ []) as Hne'.
      { intros ->. by apply Permutation_nil_r in Hperm. }
      destruct (mutSet_remove s g Hcoin Hne) as (x & Hx & _ & Hrun).
      destruct (mutSet_remove t g Hcoin Hne') as (y & Hy & _ & Hrun').
      rewrite <- (sorted_order_free s t Hperm) in Hy.
      rewrite <- (Permutation_length Hperm) in Hy, Hrun'.
      assert (y = x) as -> by congruence.
      eexists _, _, _. split; [exact Hrun|]. split; [exact Hrun'|].
      apply set_eq. intros z. rewrite !elem_of_ids, !list_elem_of_filter.
      by rewrite Hperm.
  - eexists _, _, _. split; [by apply mutSet_add|]. split; [by apply mutSet_add|].
    by rewrite !ids_set_add, Hids.
Qed.

(** C9.  On an individual that holds every catalog id the add branch
    leaves the cardinality unchanged; on a non-empty individual the remove
    branch lowers it by exactly one. *)
Theorem mutSet_cardinality (s : pyset) (g : G) :
  NoDup s →
  ((0.5 <= (gen_random g).1)%Q → (∀ i, i < NBR_ITEMS → i ∈ s) →
   ∃ s' g', mutSet s g = Some (s', g') ∧ length s' = length s ∧ ids s' = ids s) ∧
  (((gen_random g).1 < 0.5)%Q → s ≠ [] →
   ∃ s' g', mutSet s g = Some (s', g') ∧ S (length s') = length s).
Proof.
  intros Hs. split.
  - intros Hcoin%Qltb_ge Hfull. exists s. eexists. split; [|done].
    rewrite mutSet_add by done. f_equal. f_equal.
    apply set_add_member, Hfull, gen_randbelow_lt. unfold NBR_ITEMS. lia.
  - intros Hcoin%Qltb_lt Hne.
    destruct (mutSet_remove s g Hcoin Hne) as (x & _ & Hin & Hrun).
    eexists _, _. split; [exact Hrun|]. by apply length_remove_member.
Qed.

End MutationClaims.

(** C6, the claim as written fails: with a coin of 0.25 the empty
    individual stays empty. *)
Lemma mutSet_empty_stays_empty :
  mutSet (G := list nat) [] [250] = Some ([], []) ∧
  ¬ (∀ g : list nat, ∃ s g', mutSet [] g = Some (s, g') ∧ length s = 1).
Proof.
  split; [reflexivity|].
  intros Hall. destruct (Hall [250]) as (s & g' & Hrun & Hlen).
  vm_compute in Hrun. injection Hrun as <- _. discriminate Hlen.
Qed.

Lemma mutSet_order_free_witness :
  ∃ (s' t' : pyset) (g' : list nat),
    mutSet [1; 2; 3] [100; 1] = Some (s', g') ∧
    mutSet [3; 1; 2] [100; 1] = Some (t', g') ∧ ids s' = ids t'.
Proof.
  apply (mutSet_order_free [1; 2; 3] [3; 1; 2] [100; 1]).
  - apply (bool_decide_unpack (NoDup [1; 2; 3])). vm_compute. exact I.
  - apply (bool_decide_unpack (NoDup [3; 1; 2])). vm_compute. exact I.
  - apply (bool_decide_unpack (ids [1; 2; 3] = ids [3; 1; 2])). vm_compute. exact I.
Defined.

Lemma mutSet_cardinality_witness :
  (Qle 0.5%Q (gen_random (G := list nat) [700; 3]).1 →
   (∀ i, i < NBR_ITEMS → i ∈ seq 0 20) →
   ∃ s' g', mutSet (seq 0 20) [700; 3] = Some (s', g') ∧
            length s' = length (seq 0 20) ∧ ids s' = ids (seq 0 20)) ∧
  (Qlt (gen_random (G := list nat) [700; 3]).1 0.5%Q → seq 0 20 ≠ [] →
   ∃ s' g', mutSet (seq 0 20) [700; 3] = Some (s', g') ∧
            S (length s') = length (seq 0 20)).
Proof.
  apply (mutSet_cardinality (seq 0 20) [700; 3]).
  apply (bool_decide_unpack (NoDup (seq 0 20))). vm_compute. exact I.
Defined.

(** ** The Pareto archive *)

Lemma fitness_eqb_spec (x y : ObjectiveVector) :
  fitness_eqb x y = true ↔ (x.1 == y.1 ∧ x.2 == y.2)%Q.
Proof. unfold fitness_eqb. by rewrite andb_true_iff, !Qeq_bool_iff. Qed.

(** Dominance only looks at the numbers. *)
Lemma dominates_eq_l (x x' y : ObjectiveVector) :
  fitness_eqb x' x = true → dominates x y = true → dominates x' y = true.
Proof.
  rewrite fitness_eqb_spec, !dominates_spec. intros [? ?] (? & ? & ?). lra.
Qed.

Lemma dominates_eq_r (x y y' : ObjectiveVector) :
  fitness_eqb y' y = true → dominates x y = true → dominates x y' = true.
Proof.
  rewrite fitness_eqb_spec, !dominates_spec. intros [? ?] (? & ? & ?). lra.
Qed.

Lemma existsb_false_forall {A} (f : A → bool) (l : list A) :
  existsb f l = false ↔ ∀ x, x ∈ l → f x = false.
Proof.
  rewrite <- not_true_iff_false, existsb_exists. split.
  - intros Hno x Hx. apply not_true_iff_false. intros Hf.
    apply Hno. exists x. by rewrite <- list_elem_of_In.
  - intros Hall (x & Hx%list_elem_of_In & Hf). rewrite (Hall x Hx) in Hf. done.
Qed.

Lemma existsb_true_exists {A} (f : A → bool) (l : list A) :
  existsb f l = true ↔ ∃ x, x ∈ l ∧ f x = true.
Proof.
  rewrite existsb_exists. split; intros (x & Hx & Hf); exists x;
    by rewrite ?list_elem_of_In in *.
Qed.

(** A dominated candidate is discarded. *)
Lemma archive_insert_dominated (archive : list Scored) (c : Scored) :
  dominated_by archive c → archive_insert archive c = archive.
Proof.
  intros Hdom. unfold archive_insert.
  by rewrite (proj2 (existsb_true_exists _ _) Hdom).
Qed.

(** A candidate no member dominates: the members it dominates leave, and
    it enters unless a member has an equal objective vector. *)
Lemma archive_insert_members (archive : list Scored) (c m : Scored) :
  ¬ dominated_by archive c →
  m ∈ archive_insert archive c ↔
    (m ∈ archive ∧ dominates (score c) (score m) = false) ∨
    (m = c ∧ ∀ e, e ∈ archive → fitness_eqb (score e) (score c) = false).
Proof.
  intros Hnd. unfold archive_insert.
  destruct (existsb _ archive) eqn:Hex.
  { exfalso. apply Hnd. by apply existsb_true_exists. }
  set (kept := filter _ archive).
  assert (∀ e, e ∈ kept ↔ e ∈ archive ∧ dominates (score c) (score e) = false) as Hkept.
  { intros e. unfold kept. rewrite list_elem_of_filter. tauto. }
  destruct (existsb _ kept) eqn:Htwin.
  - rewrite Hkept. split; [tauto|]. intros [? | [-> Hno]]; [done|].
    apply existsb_true_exists in Htwin as (e & [He _]%Hkept & Heq).
    by rewrite (Hno e He) in Heq.
  - rewrite elem_of_app, list_elem_of_singleton, Hkept.
    split; [|tauto]. intros [? | ->]; [tauto|]. right. split; [done|].
    intros e He. destruct (fitness_eqb (score e) (score c)) eqn:Heq; [|done].
    rewrite existsb_false_forall in Htwin. rewrite <- (Htwin e); [done|].
    apply Hkept. split; [done|]. apply not_true_iff_false. intros Hd.
    apply (dominates_eq_l _ _ _ Heq) in Hd. by rewrite dominates_irrefl in Hd.
Qed.

Lemma dominated_by_decide (archive : list Scored) (c : Scored) :
  dominated_by archive c ∨ ¬ dominated_by archive c.
Proof.
  destruct (existsb (λ m, dominates (score m) (score c)) archive) eqn:Hex.
  - left. by apply existsb_true_exists.
  - right. intros Hd%existsb_true_exists. congruence.
Qed.

Lemma archive_insert_nondominated (archive : list Scored) (c : Scored) :
  nondominated archive → nondominated (archive_insert archive c).
Proof.
  intros Hnd. destruct (dominated_by_decide archive c) as [Hd|Hd].
  { by rewrite archive_insert_dominated. }
  intros m m'. rewrite !archive_insert_members by done.
  intros [[Hm _] | [-> _]] [[Hm' Hcm'] | [-> _]].
  - by apply Hnd.
  - apply not_true_iff_false. intros Hdom. apply Hd. by exists m.
  - done.
  - apply dominates_irrefl.
Qed.

(** What the archive dominates, it keeps dominating. *)
Lemma archive_insert_covers (archive : list Scored) (c x : Scored) :
  dominated_by archive x → dominated_by (archive_insert archive c) x.
Proof.
  intros (m & Hm & Hmx). destruct (dominated_by_decide archive c) as [Hd|Hd].
  { rewrite archive_insert_dominated by done. by exists m. }
  destruct (dominates (score c) (score m)) eqn:Hcm.
  - pose proof (dominates_trans _ _ _ Hcm Hmx) as Hcx.
    destruct (existsb (λ e, fitness_eqb (score e) (score c)) archive) eqn:Htwin.
    + apply existsb_true_exists in Htwin as (e & He & Heq).
      exists e. split; [|by eapply dominates_eq_l].
      apply archive_insert_members; [done|]. left. split; [done|].
      apply not_true_iff_false. intros Hce.
      apply (dominates_eq_l _ _ _ Heq) in Hce. by rewrite dominates_irrefl in Hce.
    + exists c. split; [|done].
      apply archive_insert_members; [done|]. right. split; [done|].
      by apply existsb_false_forall.
  - exists m. split; [|done]. apply archive_insert_members; [done|]. by left.
Qed.

Lemma dominated_no_twin (archive : list Scored) (x e : Scored) :
  nondominated archive → dominated_by archive x → e ∈ archive →
  fitness_eqb (score e) (score x) = false.
Proof.
  intros Hnd (m & Hm & Hmx) He. apply not_true_iff_false. intros Heq.
  apply (dominates_eq_r _ _ _ Heq) in Hmx. by rewrite (Hnd m e) in Hmx.
Qed.

Lemma fitness_eqb_refl (x : ObjectiveVector) : fitness_eqb x x = true.
Proof. apply fitness_eqb_spec. split; reflexivity. Qed.

Lemma ParetoFront_update_nondominated (archive candidates : list Scored) :
  nondominated archive → nondominated (ParetoFront_update archive candidates).
Proof.
  unfold ParetoFront_update. revert archive.
  induction candidates as [|c cs IH]; intros archive Hnd; [done|].
  cbn. by apply IH, archive_insert_nondominated.
Qed.

Lemma ParetoFront_update_covers (archive candidates : list Scored) (x : Scored) :
  dominated_by archive x → dominated_by (ParetoFront_update archive candidates) x.
Proof.
  unfold ParetoFront_update. revert archive.
  induction candidates as [|c cs IH]; intros archive Hd; [done|].
  cbn. by apply IH, archive_insert_covers.
Qed.

(** The update is the per-candidate step, taken in order. *)
Lemma ParetoFront_update_app (archive cs1 cs2 : list Scored) :
  ParetoFront_update archive (cs1 ++ cs2)
  = ParetoFront_update (ParetoFront_update archive cs1) cs2.
Proof. unfold ParetoFront_update. apply foldl_app. Qed.

Lemma archive_insert_from (archive : list Scored) (c m : Scored) :
  m ∈ archive_insert archive c → m ∈ archive ∨ m = c.
Proof.
  destruct (dominated_by_decide archive c) as [Hd|Hd].
  - rewrite archive_insert_dominated by done. by left.
  - rewrite archive_insert_members by done. tauto.
Qed.

Lemma ParetoFront_update_from (archive candidates : list Scored) (m : Scored) :
  m ∈ ParetoFront_update archive candidates → m ∈ archive ∨ m ∈ candidates.
Proof.
  unfold ParetoFront_update. revert archive.
  induction candidates as [|c cs IH]; intros archive Hm; cbn in Hm; [by left|].
  destruct (IH _ Hm) as [Hin|Hin]; [|right; by right].
  destruct (archive_insert_from archive c m Hin) as [?| ->]; [by left|right; by left].
Qed.

Lemma fitness_eqb_sym (x y : ObjectiveVector) :
  fitness_eqb x y = true → fitness_eqb y x = true.
Proof. rewrite !fitness_eqb_spec. intros [Hw Hv]. by rewrite Hw, Hv. Qed.

Lemma covered_by_member (archive : list Scored) (c : Scored) :
  c ∈ archive → covered_by archive c.
Proof. intros Hc. exists c. split; [done|]. right. apply fitness_eqb_refl. Qed.

(** After its turn a candidate is covered: discarded because dominated,
    inserted, or represented by a member with its objective vector. *)
Lemma archive_insert_covers_candidate (archive : list Scored) (c : Scored) :
  covered_by (archive_insert archive c) c.
Proof.
  destruct (dominated_by_decide archive c) as [Hd|Hd].
  { rewrite archive_insert_dominated by done.
    destruct Hd as (m & Hm & Hmc). exists m. auto. }
  destruct (existsb (λ e, fitness_eqb (score e) (score c)) archive) eqn:Htwin.
  - apply existsb_true_exists in Htwin as (e & He & Heq).
    exists e. split; [|by right].
    apply archive_insert_members; [done|]. left. split; [done|].
    apply not_true_iff_false. intros Hce.
    apply (dominates_eq_l _ _ _ Heq) in Hce. by rewrite dominates_irrefl in Hce.
  - apply covered_by_member. apply archive_insert_members; [done|].
    right. split; [done|]. by apply existsb_false_forall.
Qed.

(** What the archive covers, it keeps covering. *)
Lemma archive_insert_keeps_covered (archive : list Scored) (c x : Scored) :
  covered_by archive x → covered_by (archive_insert archive c) x.
Proof.
  intros (m & Hm & Hmx). destruct (dominated_by_decide archive c) as [Hd|Hd].
  { rewrite archive_insert_dominated by done. by exists m. }
  destruct (dominates (score c) (score m)) eqn:Hcm.
  - assert (dominates (score c) (score x) = true) as Hcx.
    { destruct Hmx as [Hmx|Hmx]; [by eapply dominates_trans|].
      apply fitness_eqb_sym in Hmx. by eapply dominates_eq_r. }
    destruct (archive_insert_covers_candidate archive c) as (e & He & [Hec|Hec]).
    + exists e. split; [done|]. left. by eapply dominates_trans.
    + exists e. split; [done|]. left. by eapply dominates_eq_l.
  - exists m. split; [|done]. apply archive_insert_members; [done|]. by left.
Qed.

Lemma ParetoFront_update_keeps_covered (archive candidates : list Scored) (x : Scored) :
  covered_by archive x → covered_by (ParetoFront_update archive candidates) x.
Proof.
  unfold ParetoFront_update. revert archive.
  induction candidates as [|c cs IH]; intros archive Hx; [done|].
  cbn. by apply IH, archive_insert_keeps_covered.
Qed.

Lemma ParetoFront_update_covers_all (archive candidates : list Scored) (c : Scored) :
  c ∈ archive ∨ c ∈ candidates →
  covered_by (ParetoFront_update archive candidates) c.
Proof.
  intros [Hc|Hc].
  { by apply ParetoFront_update_keeps_covered, covered_by_member. }
  revert archive. induction candidates as [|c' cs IH]; intros archive.
  { by apply elem_of_nil in Hc. }
  change (ParetoFront_update archive (c' :: cs))
    with (ParetoFront_update (archive_insert archive c') cs).
  apply elem_of_cons in Hc as [->|Hc].
  - apply ParetoFront_update_keeps_covered, archive_insert_covers_candidate.
  - by apply IH.
Qed.

(** C3.  The update takes the candidates one at a time, in order.  A
    candidate some current member dominates is discarded; otherwise the
    members it dominates are removed and it is inserted unless a member has
    an equal objective vector.  After an update of an archive without
    internal dominance, no member dominates another; a candidate that was
    dominated when its turn came is absent, as is every individual with its
    objective vector; every member comes from the archive or the candidates;
    and every old member and every candidate is dominated by, or has the
    objective vector of, some member. *)
Theorem ParetoFront_update_invariant (archive candidates : list Scored) :
  nondominated archive →
  (∀ A, ParetoFront_update A [] = A) ∧
  (∀ A cs1 cs2,
     ParetoFront_update A (cs1 ++ cs2)
     = ParetoFront_update (ParetoFront_update A cs1) cs2) ∧
  (∀ A c, dominated_by A c → ParetoFront_update A [c] = A) ∧
  (∀ A c m, ¬ dominated_by A c →
     (m ∈ ParetoFront_update A [c] ↔
       (m ∈ A ∧ dominates (score c) (score m) = false) ∨
       (m = c ∧ ∀ e, e ∈ A → fitness_eqb (score e) (score c) = false))) ∧
  nondominated (ParetoFront_update archive candidates) ∧
  (∀ pre c post, candidates = pre ++ c :: post →
     dominated_by (ParetoFront_update archive pre) c →
     (c ∉ ParetoFront_update archive candidates) ∧
     (∀ e, e ∈ ParetoFront_update archive candidates →
           fitness_eqb (score e) (score c) = false)) ∧
  (∀ m, m ∈ ParetoFront_update archive candidates →
        m ∈ archive ∨ m ∈ candidates) ∧
  (∀ c, c ∈ archive ∨ c ∈ candidates →
        covered_by (ParetoFront_update archive candidates) c).
Proof.
  intros Hnd.
  split; [done|].
  split; [exact ParetoFront_update_app|].
  split; [intros A c; apply (archive_insert_dominated A c)|].
  split; [intros A c m; apply (archive_insert_members A c m)|].
  split; [by apply ParetoFront_update_nondominated|].
  split; [|split; [apply ParetoFront_update_from | apply ParetoFront_update_covers_all]].
  intros pre c post -> Hd.
  assert (∀ e, e ∈ ParetoFront_update archive (pre ++ c :: post) →
               fitness_eqb (score e) (score c) = false) as Hno.
  { intros e He. eapply dominated_no_twin; [|  |exact He].
    - by apply ParetoFront_update_nondominated.
    - unfold ParetoFront_update. rewrite foldl_app. cbn.
      rewrite archive_insert_dominated by done.
      by apply ParetoFront_update_covers. }
  split; [|done]. intros Hin. apply Hno in Hin. by rewrite fitness_eqb_refl in Hin.
Qed.

Lemma ParetoFront_update_invariant_witness :
  let a := {| member := [1]; score := (3, 5)%Q |} in
  let b := {| member := [2]; score := (4, 9)%Q |} in
  let c := {| member := [3]; score := (5, 4)%Q |} in
  let d := {| member := [1; 2]; score := (2, 9)%Q |} in
  (∀ A, ParetoFront_update A [] = A) ∧
  (∀ A cs1 cs2,
     ParetoFront_update A (cs1 ++ cs2)
     = ParetoFront_update (ParetoFront_update A cs1) cs2) ∧
  (∀ A c, dominated_by A c → ParetoFront_update A [c] = A) ∧
  (∀ A c m, ¬ dominated_by A c →
     (m ∈ ParetoFront_update A [c] ↔
       (m ∈ A ∧ dominates (score c) (score m) = false) ∨
       (m = c ∧ ∀ e, e ∈ A → fitness_eqb (score e) (score c) = false))) ∧
  nondominated (ParetoFront_update [a; b] [c; d]) ∧
  (∀ pre c0 post, [c; d] = pre ++ c0 :: post →
     dominated_by (ParetoFront_update [a; b] pre) c0 →
     (c0 ∉ ParetoFront_update [a; b] [c; d]) ∧
     (∀ e, e ∈ ParetoFront_update [a; b] [c; d] →
           fitness_eqb (score e) (score c0) = false)) ∧
  (∀ m, m ∈ ParetoFront_update [a; b] [c; d] → m ∈ [a; b] ∨ m ∈ [c; d]) ∧
  (∀ c0, c0 ∈ [a; b] ∨ c0 ∈ [c; d] →
         covered_by (ParetoFront_update [a; b] [c; d]) c0).
Proof.
  intros a b c d. apply (ParetoFront_update_invariant [a; b] [c; d]).
  intros m m' Hm Hm'.
  apply elem_of_cons in Hm as [->|Hm]; [|apply list_elem_of_singleton in Hm as ->];
    (apply elem_of_cons in Hm' as [->|Hm']; [|apply list_elem_of_singleton in Hm' as ->]);
    reflexivity.
Defined.

Example ParetoFront_update_trace :
  map score
    (ParetoFront_update
       [ {| member := [1]; score := (3, 5)%Q |}; {| member := [2]; score := (4, 9)%Q |} ]
       [ {| member := [3]; score := (5, 4)%Q |}; {| member := [1; 2]; score := (2, 9)%Q |} ])
  = [(2, 9)%Q].
Proof. reflexivity. Qed.

Example ParetoFront_update_first :
  ParetoFront_update [] [ {| member := [1]; score := (3, 5)%Q |} ]
  = [ {| member := [1]; score := (3, 5)%Q |} ].
Proof. reflexivity. Qed.

Example ParetoFront_update_twin :
  ParetoFront_update
    [ {| member := [1]; score := (3, 5)%Q |} ]
    [ {| member := [2]; score := (3, 5)%Q |}; {| member := [3]; score := (4, 9)%Q |} ]
  = [ {| member := [1]; score := (3, 5)%Q |}; {| member := [3]; score := (4, 9)%Q |} ].
Proof. reflexivity. Qed.

(** ** Computations that always return *)

Section Succeeds.
Context {G : Type} `{RandomGen G}.

Lemma succeeds_ret {A} (a : A) (P : A → Prop) : P a → succeeds (G := G) (ret a) P.
Proof. intros Ha g. by exists a, g. Qed.

Lemma succeeds_bind {A B} (m : Rand G A) (k : A → Rand G B)
    (P : A → Prop) (Q : B → Prop) :
  succeeds m P → (∀ a, P a → succeeds (k a) Q) → succeeds (bind m k) Q.
Proof.
  intros Hm Hk g. destruct (Hm g) as (a & g1 & Hrun & Ha).
  destruct (Hk a Ha g1) as (b & g2 & Hrun' & Hb).
  exists b, g2. unfold bind. by rewrite Hrun.
Qed.

Lemma succeeds_lift_opt {A} (o : option A) (a : A) (P : A → Prop) :
  o = Some a → P a → succeeds (G := G) (lift_opt o) P.
Proof. intros -> Ha. by apply succeeds_ret. Qed.

Lemma succeeds_weaken {A} (m : Rand G A) (P Q : A → Prop) :
  succeeds m P → (∀ a, P a → Q a) → succeeds m Q.
Proof.
  intros Hm HPQ g. destruct (Hm g) as (a & g' & Hrun & Ha). exists a, g'. auto.
Qed.

Lemma random_random_succeeds : succeeds random_random (λ _, True).
Proof. intros g. unfold random_random. destruct (gen_random g) as [u g']. by exists u, g'. Qed.

Lemma random_randrange_succeeds (n : nat) :
  0 < n → succeeds (random_randrange n) (λ x, x < n).
Proof.
  intros Hn g. unfold random_randrange. rewrite bool_decide_eq_true_2 by done.
  pose proof (gen_randbelow_lt n g Hn). destruct (gen_randbelow n g) as [x g'].
  by exists x, g'.
Qed.

Lemma random_choice_succeeds {A} (seq : list A) :
  seq ≠ [] → succeeds (random_choice seq) (λ x, x ∈ seq).
Proof.
  intros Hne g. destruct (random_choice_member seq g Hne) as (x & Hx & Hrun).
  exists x. eexists. split; [exact Hrun|]. by eapply list_elem_of_lookup_2.
Qed.

Lemma initRepeat_succeeds {A} (func : Rand G A) (P : A → Prop) (n : nat) :
  succeeds func P →
  succeeds (initRepeat func n) (λ xs, length xs = n ∧ Forall P xs).
Proof.
  intros Hf. induction n as [|n IH]; cbn.
  - by apply succeeds_ret.
  - eapply succeeds_bind; [exact Hf|]. intros x Hx.
    eapply succeeds_bind; [exact IH|]. intros xs [Hlen Hxs].
    apply succeeds_ret. cbn. split; [by rewrite Hlen | by constructor].
Qed.

End Succeeds.

(** ** Initialisation and evaluation never raise *)

Lemma elem_of_set_of (x : nat) (l : list nat) : x ∈ set_of l ↔ x ∈ l.
Proof.
  unfold set_of.
  assert (∀ acc, x ∈ foldl (λ s y, set_add y s) acc l ↔ x ∈ acc ∨ x ∈ l) as Hgen.
  { induction l as [|y l IH]; intros acc; cbn.
    - rewrite elem_of_nil. tauto.
    - rewrite IH, <- !elem_of_ids, ids_set_add, elem_of_union, elem_of_singleton,
        !elem_of_ids, elem_of_cons. tauto. }
  rewrite Hgen, elem_of_nil. tauto.
Qed.

Lemma knapsack_sums_defined (items : catalog) (individual : pyset) (weight value : Q) :
  (∀ x, x ∈ individual → is_Some (items !! x)) →
  is_Some (knapsack_sums items individual weight value).
Proof.
  revert weight value. induction individual as [|item rest IH]; intros weight value Hall.
  - by eexists.
  - cbn. destruct (Hall item) as [[w v] ->]; [by left|].
    apply IH. intros x Hx. apply Hall. by right.
Qed.

Lemma evalKnapsack_defined (items : catalog) (individual : pyset) :
  catalog_covers items → valid_ids individual →
  is_Some (evalKnapsack items individual).
Proof.
  intros Hcov Hval. unfold evalKnapsack.
  destruct (knapsack_sums_defined items individual 0 0) as [[weight value] ->].
  { intros x Hx. by apply Hcov, Hval. }
  by destruct (_ || _).
Qed.

Lemma evaluate_stale_defined (items : catalog) (inds : list Individual) :
  catalog_covers items → Forall (λ ind, valid_ids (genome ind)) inds →
  ∃ scored, evaluate_stale items inds = Some scored ∧
            length scored = length inds ∧
            Forall (λ sc, valid_ids (member sc)) scored.
Proof.
  intros Hcov. unfold evaluate_stale. induction 1 as [|ind inds Hind _ IH].
  - by exists [].
  - destruct IH as (scored & Hrun & Hlen & Hval).
    assert (∃ sc, evaluate_one items ind = Some sc ∧ member sc = genome ind)
      as (sc & Hsc & Hm).
    { unfold evaluate_one. destruct (fitness ind) as [|v].
      - destruct (evalKnapsack_defined items (genome ind)) as [v ->]; [done..|].
        by eexists.
      - by eexists. }
    exists (sc :: scored). cbn. rewrite Hsc. cbn. rewrite Hrun. cbn.
    split; [done|]. split; [by rewrite Hlen|].
    constructor; [by rewrite Hm | done].
Qed.

Section InitProps.
Context {G : Type} `{RandomGen G}.

Lemma fill_items_succeeds (range : list nat) (items : catalog) :
  succeeds (fill_items range items)
    (λ items', ∀ i, i ∈ range ∨ is_Some (items !! i) → is_Some (items' !! i)).
Proof.
  revert items. induction range as [|i range IH]; intros items; cbn.
  - apply succeeds_ret. intros i [Hi|Hi]; [by apply elem_of_nil in Hi | done].
  - eapply succeeds_bind.
    { unfold random_randint. eapply succeeds_bind.
      - apply (random_randrange_succeeds 10). lia.
      - intros k _. by apply (succeeds_ret _ (λ _, True)). }
    intros w _. eapply succeeds_bind.
    { unfold random_uniform. eapply succeeds_bind; [apply random_random_succeeds|].
      intros u _. by apply (succeeds_ret _ (λ _, True)). }
    intros v _. eapply succeeds_weaken; [apply IH|].
    intros items' Hitems' j Hj. apply Hitems'.
    destruct (decide (j = i)) as [->|Hne].
    + right. rewrite lookup_insert_eq. by eexists.
    + rewrite lookup_insert_ne by done.
      destruct Hj as [Hj|Hj]; [|by right]. left.
      apply elem_of_cons in Hj as [?|?]; done.
Qed.

(** The catalog is built on import and has the ids 0 .. NBR_ITEMS-1. *)
Lemma module_items_defined :
  ∃ items, module_items = Some items ∧ catalog_covers items.
Proof.
  unfold module_items.
  destruct (fill_items_succeeds (seq 0 NBR_ITEMS) ∅ (gen_seed 64))
    as (items & g' & Hrun & Hcov).
  exists items. rewrite Hrun. split; [done|].
  intros i Hi. apply Hcov. left. apply elem_of_seq. lia.
Qed.

Lemma toolbox_individual_succeeds :
  succeeds toolbox_individual (λ ind, valid_ids (genome ind)).
Proof.
  unfold toolbox_individual. eapply succeeds_bind.
  - apply initRepeat_succeeds. apply random_randrange_succeeds. unfold NBR_ITEMS. lia.
  - intros l [_ Hl]. apply succeeds_ret. cbn. intros x Hx.
    rewrite elem_of_set_of in Hx. by apply (proj1 (Forall_forall _ _) Hl).
Qed.

Lemma toolbox_population_succeeds (n : Z) :
  succeeds (toolbox_population n)
    (λ pop, length pop = Z.to_nat n ∧ Forall (λ ind, valid_ids (genome ind)) pop).
Proof. apply initRepeat_succeeds, toolbox_individual_succeeds. Qed.

End InitProps.

(** ** Variation never raises *)

Section VariationProps.
Context {G : Type} `{RandomGen G}.

Lemma valid_ids_set_add (x : nat) (s : pyset) :
  x < NBR_ITEMS → valid_ids s → valid_ids (set_add x s).
Proof.
  intros Hx Hs y. rewrite <- elem_of_ids, ids_set_add, elem_of_union,
    elem_of_singleton, elem_of_ids.
  intros [Hy| ->]; [by apply Hs | done].
Qed.

Lemma mutSet_succeeds (s : pyset) : valid_ids s → succeeds (mutSet s) valid_ids.
Proof.
  intros Hs g. destruct (Qltb (gen_random g).1 0.5) eqn:Hcoin.
  - destruct (decide (s = [])) as [->|Hne].
    + eexists _, _. split; [by apply mutSet_skip | done].
    + destruct (mutSet_remove s g Hcoin Hne) as (x & _ & _ & Hrun).
      eexists _, _. split; [exact Hrun|].
      intros y [_ Hy]%list_elem_of_filter. by apply Hs.
  - eexists _, _. split; [by apply mutSet_add|].
    apply valid_ids_set_add; [|done]. apply gen_randbelow_lt. unfold NBR_ITEMS. lia.
Qed.

Lemma variation_trial_succeeds (pop : list Scored) (cxpb mutpb : Q) :
  pop ≠ [] → Forall (λ sc, valid_ids (member sc)) pop →
  succeeds (variation_trial pop cxpb mutpb) (λ ind, valid_ids (genome ind)).
Proof.
  intros Hne Hpop. rewrite Forall_forall in Hpop. unfold variation_trial.
  eapply succeeds_bind; [apply random_random_succeeds|]. intros op _.
  destruct (Qltb op cxpb); [|destruct (Qltb op (cxpb + mutpb))].
  - eapply succeeds_bind; [by apply random_choice_succeeds|]. intros p1 Hp1.
    eapply succeeds_bind; [by apply random_choice_succeeds|]. intros p2 Hp2.
    eapply succeeds_bind.
    + eapply (succeeds_lift_opt _ _ (λ ch, valid_ids ch.1)); [apply mate_children|].
      cbn. intros y [_ Hy]%list_elem_of_filter. by apply (Hpop p1).
    + intros ch Hch. by apply succeeds_ret.
  - eapply succeeds_bind; [by apply random_choice_succeeds|]. intros p Hp.
    eapply succeeds_bind; [apply mutSet_succeeds; by apply Hpop|].
    intros mutant Hm. by apply succeeds_ret.
  - eapply succeeds_bind; [by apply random_choice_succeeds|]. intros p Hp.
    apply succeeds_ret. cbn. by apply Hpop.
Qed.

End VariationProps.

(** ** The evolution loop *)

Lemma stats_compile_defined (gen : nat) (pop : list Scored) :
  pop ≠ [] → ∃ r, stats_compile gen pop = Some r ∧ rec_gen r = gen.
Proof.
  intros Hne. destruct pop as [|sc pop]; [done|]. unfold stats_compile. cbn.
  by eexists.
Qed.

Section LoopProps.
Context {G : Type} `{RandomGen G}.
Variable selNSGA2 : list Scored → nat → list Scored.
Variable items : catalog.
Variables (mu lambda_ : Z) (cxpb mutpb : Q).
Hypothesis select_ok : select_contract selNSGA2.
Hypothesis items_ok : catalog_covers items.
Hypothesis mu_pos : (0 < mu)%Z.

Lemma population_ok_nonempty (st : EvoState) :
  population_ok mu st → population st ≠ [].
Proof. intros [Hlen _] Hnil. rewrite Hnil in Hlen. cbn in Hlen. lia. Qed.

(** One generation keeps a population of [mu] valid individuals and appends
    exactly one record, numbered with the generation. *)
Lemma generation_step_succeeds (gen : nat) (st : EvoState) :
  population_ok mu st →
  succeeds (generation_step selNSGA2 items mu lambda_ cxpb mutpb gen st)
    (λ st', population_ok mu st' ∧
            ∃ r, logbook st' = logbook st ++ [r] ∧ rec_gen r = gen).
Proof.
  intros Hst. pose proof (population_ok_nonempty st Hst) as Hne.
  destruct Hst as [Hlen Hval]. destruct select_ok as [Hsize Hsub].
  unfold generation_step.
  eapply succeeds_bind.
  { unfold varOr. apply initRepeat_succeeds. by apply variation_trial_succeeds. }
  intros offspring [_ Hoff].
  destruct (evaluate_stale_defined items offspring items_ok Hoff)
    as (scored & Hrun & _ & Hscored).
  eapply succeeds_bind.
  { by apply (succeeds_lift_opt _ scored (λ x, x = scored)). }
  intros ? ->. cbn zeta.
  set (pop := selNSGA2 (population st ++ scored) (Z.to_nat mu)).
  assert (length pop = Z.to_nat mu) as Hlen'.
  { apply Hsize. rewrite length_app. lia. }
  assert (Forall (λ sc, valid_ids (member sc)) pop) as Hval'.
  { apply Forall_forall. intros sc Hsc%Hsub.
    apply elem_of_app in Hsc as [Hsc|Hsc].
    - by apply (proj1 (Forall_forall _ _) Hval).
    - by apply (proj1 (Forall_forall _ _) Hscored). }
  destruct (stats_compile_defined gen pop) as (r & Hr & Hgen).
  { intros Hnil. rewrite Hnil in Hlen'. cbn in Hlen'. lia. }
  eapply succeeds_bind.
  { by apply (succeeds_lift_opt _ r (λ x, x = r)). }
  intros ? ->. apply succeeds_ret. cbn. split; [done|]. by exists r.
Qed.

Lemma generations_succeeds (gens : list nat) (st : EvoState) :
  population_ok mu st →
  succeeds (generations selNSGA2 items mu lambda_ cxpb mutpb gens st)
    (λ st', population_ok mu st' ∧
            ∃ rs, logbook st' = logbook st ++ rs ∧ map rec_gen rs = gens).
Proof.
  revert st. induction gens as [|gen gens IH]; intros st Hst; cbn.
  - apply succeeds_ret. split; [done|]. exists []. by rewrite app_nil_r.
  - eapply succeeds_bind; [by apply generation_step_succeeds|].
    intros st1 (Hst1 & r & Hlog & Hgen).
    eapply succeeds_weaken; [by apply IH|].
    intros st2 (Hst2 & rs & Hlog' & Hgens). split; [done|].
    exists (r :: rs). rewrite Hlog', Hlog, <- app_assoc. cbn. by rewrite Hgen, Hgens.
Qed.

(** The loop returns with a population of [mu] valid individuals and one
    record per generation 0 .. [ngen]. *)
Lemma eaMuPlusLambda_succeeds (pop : list Individual) (ngen : Z) (hof : list Scored) :
  length pop = Z.to_nat mu → Forall (λ ind, valid_ids (genome ind)) pop →
  succeeds (eaMuPlusLambda selNSGA2 items pop mu lambda_ cxpb mutpb ngen hof)
    (λ st, population_ok mu st ∧
           map rec_gen (logbook st) = seq 0 (S (Z.to_nat ngen))).
Proof.
  intros Hlen Hval. unfold eaMuPlusLambda.
  destruct (evaluate_stale_defined items pop items_ok Hval)
    as (scored & Hrun & Hlen' & Hscored).
  eapply succeeds_bind.
  { by apply (succeeds_lift_opt _ scored (λ x, x = scored)). }
  intros ? ->. cbn zeta.
  destruct (stats_compile_defined 0 scored) as (r & Hr & Hgen).
  { intros Hnil. rewrite Hnil in Hlen'. cbn in Hlen'. lia. }
  eapply succeeds_bind.
  { by apply (succeeds_lift_opt _ r (λ x, x = r)). }
  intros ? ->. eapply succeeds_weaken.
  { apply generations_succeeds. split; cbn; [lia | done]. }
  cbn. intros st (Hst & rs & -> & Hgens). split; [done|].
  cbn. by rewrite Hgen, Hgens.
Qed.

End LoopProps.

(** ** The run *)

Lemma select_first_contract : select_contract select_first.
Proof.
  split.
  - intros pool k Hk. unfold select_first. rewrite length_take. lia.
  - intros pool k x Hx. by apply (subseteq_take k pool).
Qed.

Lemma py_index_nonneg {A} (l : list A) (i : Z) :
  (0 ≤ i)%Z → py_index l i = l !! Z.to_nat i.
Proof. intros Hi. unfold py_index. by rewrite bool_decide_eq_true_2. Qed.

(** With records numbered 0 .. NGEN, the record read for the metrics is the
    one of generation NGEN and it is the last one. *)
Lemma main_finish_last (cfg : Config) (st : EvoState) :
  (0 ≤ NGEN cfg)%Z →
  map rec_gen (logbook st) = seq 0 (S (Z.to_nat (NGEN cfg))) →
  ∃ r, logbook st !! Z.to_nat (NGEN cfg) = Some r ∧
       last (logbook st) = Some r ∧
       rec_gen r = Z.to_nat (NGEN cfg) ∧
       main_finish cfg st
       = Some {| out_params := cfg;
                 out_metrics := ((rec_max r).1, (rec_max r).2);
                 out_plot := (map rec_gen (logbook st), map rec_max (logbook st));
                 out_state := st |}.
Proof.
  intros Hngen Hgens.
  assert (length (logbook st) = S (Z.to_nat (NGEN cfg))) as Hlen.
  { by rewrite <- (length_map rec_gen), Hgens, length_seq. }
  destruct (lookup_lt_is_Some_2 (logbook st) (Z.to_nat (NGEN cfg))) as [r Hr]; [lia|].
  exists r. split; [done|]. split; [by rewrite last_lookup, Hlen|].
  split.
  { assert (map rec_gen (logbook st) !! Z.to_nat (NGEN cfg) = Some (rec_gen r)) as Hg.
    { by rewrite list_lookup_fmap, Hr. }
    rewrite Hgens in Hg. apply lookup_seq in Hg. lia. }
  unfold main_finish. rewrite py_index_nonneg by done.
  by rewrite list_lookup_fmap, Hr.
Qed.

Section RunProps.
Context {G : Type} `{RandomGen G}.

(** [main] calls the library loop on a freshly built population, whatever
    the parameters and whatever the loop is. *)
Lemma main_with_init
    (ea : catalog → list Individual → Z → Z → Q → Q → Z → list Scored → Rand G EvoState)
    (cfg : Config) :
  ∃ items pop g,
    module_items = Some items ∧ catalog_covers items ∧
    toolbox_population (MU cfg) (gen_seed 64) = Some (pop, g) ∧
    length pop = Z.to_nat (MU cfg) ∧
    Forall (λ ind, valid_ids (genome ind)) pop ∧
    main_with ea cfg
    = ('(st, _) ← ea items pop (MU cfg) (LAMBDA cfg) (CXPB cfg) (MUTPB cfg)
                    (NGEN cfg) [] g;
       main_finish cfg st).
Proof.
  destruct module_items_defined as (items & Hitems & Hcov).
  destruct (toolbox_population_succeeds (MU cfg) (gen_seed 64))
    as (pop & g & Hpop & Hlen & Hval).
  exists items, pop, g. split_and!; try done.
  unfold main_with. rewrite Hitems. cbn. rewrite Hpop. done.
Qed.

(** With the modelled loop and a positive MU the run returns, and its log
    has the generations 0 .. NGEN. *)
Lemma main_with_runs (selNSGA2 : list Scored → nat → list Scored) (cfg : Config) :
  select_contract selNSGA2 → (0 < MU cfg)%Z → (0 ≤ NGEN cfg)%Z →
  ∃ out r,
    main_with (eaMuPlusLambda selNSGA2) cfg = Some out ∧
    population_ok (MU cfg) (out_state out) ∧
    map rec_gen (logbook (out_state out)) = seq 0 (S (Z.to_nat (NGEN cfg))) ∧
    logbook (out_state out) !! Z.to_nat (NGEN cfg) = Some r ∧
    last (logbook (out_state out)) = Some r ∧
    out_metrics out = ((rec_max r).1, (rec_max r).2).
Proof.
  intros Hsel Hmu Hngen.
  destruct (main_with_init (eaMuPlusLambda selNSGA2) cfg)
    as (items & pop & g & _ & Hcov & _ & Hlen & Hval & ->).
  destruct (eaMuPlusLambda_succeeds selNSGA2 items (MU cfg) (LAMBDA cfg) (CXPB cfg)
              (MUTPB cfg) Hsel Hcov Hmu pop (NGEN cfg) [] Hlen Hval g)
    as (st & g' & Hrun & Hst & Hgens).
  destruct (main_finish_last cfg st Hngen Hgens) as (r & Hr & Hlast & _ & Hfin).
  rewrite Hrun. cbn. rewrite Hfin. eexists _, r. split; [done|]. by cbn.
Qed.

End RunProps.

Section RunClaims.
Context {G : Type} `{RandomGen G}.

(** C5.  A run of NGEN generations returns with a log of exactly NGEN+1
    records, numbered 0 .. NGEN; the two reported metrics are the components
    of the [max] field of the record at index NGEN, which is the last
    record.  With the constants of [main] the log has 101 records. *)
Theorem main_generation_records (selNSGA2 : list Scored → nat → list Scored) :
  select_contract selNSGA2 →
  (∀ cfg, (0 < MU cfg)%Z → (0 ≤ NGEN cfg)%Z →
     ∃ out r,
       main_with (eaMuPlusLambda selNSGA2) cfg = Some out ∧
       length (logbook (out_state out)) = Z.to_nat (NGEN cfg) + 1 ∧
       map rec_gen (logbook (out_state out)) = seq 0 (Z.to_nat (NGEN cfg) + 1) ∧
       logbook (out_state out) !! Z.to_nat (NGEN cfg) = Some r ∧
       last (logbook (out_state out)) = Some r ∧
       out_metrics out = ((rec_max r).1, (rec_max r).2)) ∧
  (∃ out, main (eaMuPlusLambda selNSGA2) = Some out ∧
          length (logbook (out_state out)) = 101 ∧
          map rec_gen (logbook (out_state out)) = seq 0 101).
Proof.
  intros Hsel. split.
  - intros cfg Hmu Hngen.
    destruct (main_with_runs selNSGA2 cfg Hsel Hmu Hngen)
      as (out & r & Hrun & _ & Hgens & Hr & Hlast & Hmetrics).
    exists out, r. rewrite Nat.add_1_r. split_and!; try done.
    by rewrite <- (length_map rec_gen), Hgens, length_seq.
  - destruct (main_with_runs selNSGA2 main_config Hsel)
      as (out & r & Hrun & _ & Hgens & _); [done..|].
    exists out. split; [done|]. split; [|done].
    by rewrite <- (length_map rec_gen), Hgens, length_seq.
Qed.

End RunClaims.

Lemma main_generation_records_witness :
  (∀ cfg, (0 < MU cfg)%Z → (0 ≤ NGEN cfg)%Z →
     ∃ out r,
       main_with (G := list nat) (eaMuPlusLambda select_first) cfg = Some out ∧
       length (logbook (out_state out)) = Z.to_nat (NGEN cfg) + 1 ∧
       map rec_gen (logbook (out_state out)) = seq 0 (Z.to_nat (NGEN cfg) + 1) ∧
       logbook (out_state out) !! Z.to_nat (NGEN cfg) = Some r ∧
       last (logbook (out_state out)) = Some r ∧
       out_metrics out = ((rec_max r).1, (rec_max r).2)) ∧
  (∃ out, main (G := list nat) (eaMuPlusLambda select_first) = Some out ∧
          length (logbook (out_state out)) = 101 ∧
          map rec_gen (logbook (out_state out)) = seq 0 101).
Proof.
  apply (main_generation_records (G := list nat) select_first).
  exact select_first_contract.
Defined.

(** The constants [main] fixes are positive, and CXPB + MUTPB is at most 1. *)
Lemma main_config_valid : valid_config main_config.
Proof.
  unfold valid_config, main_config. cbn. split_and!; try lia. by vm_compute.
Qed.

(** * Further properties of the source *)

(** ** Evaluation against the integer weight sum *)

Lemma knapsack_sums_total (items : catalog) (s : pyset) (w0 v0 : Q) :
  (∀ x, x ∈ s → is_Some (items !! x)) →
  ∃ w v, knapsack_sums items s w0 v0 = Some (w, v) ∧
         (w == w0 + inject_Z (total_weight items s))%Q.
Proof.
  revert w0 v0. induction s as [|item rest IH]; intros w0 v0 Hall.
  - exists w0, v0. split; [done|]. symmetry. apply Qplus_0_r.
  - destruct (Hall item) as [[wi vi] Hitem]; [by left|].
    destruct (IH (w0 + inject_Z wi)%Q (v0 + vi)%Q) as (w & v & Hrun & Hw).
    { intros x Hx. apply Hall. by right. }
    exists w, v. cbn [knapsack_sums]. rewrite Hitem. split; [done|].
    rewrite Hw. change (total_weight items (item :: rest))
      with (item_weight items item + total_weight items rest)%Z.
    unfold item_weight. rewrite Hitem, inject_Z_plus. ring.
Qed.

Lemma knapsack_sums_missing (items : catalog) (s : pyset) (x : nat) (w0 v0 : Q) :
  x ∈ s → items !! x = None → knapsack_sums items s w0 v0 = None.
Proof.
  revert w0 v0. induction s as [|item rest IH]; intros w0 v0 Hx Hnone.
  - by apply elem_of_nil in Hx.
  - cbn. destruct (items !! item) as [[wi vi]|] eqn:Hitem; [|done].
    apply IH; [|done]. apply elem_of_cons in Hx as [->|Hx]; [congruence | done].
Qed.

Lemma total_weight_perm (items : catalog) (s t : pyset) :
  s ≡ₚ t → total_weight items s = total_weight items t.
Proof.
  unfold total_weight. induction 1 as [|x s t _ IH|x y s|s t u _ IH1 _ IH2]; cbn.
  - done.
  - by rewrite IH.
  - lia.
  - by rewrite IH1.
Qed.

Lemma total_weight_bounds (items : catalog) (s : pyset) :
  catalog_in_range items → (∀ x, x ∈ s → is_Some (items !! x)) →
  (Z.of_nat (length s) ≤ total_weight items s ≤ 10 * Z.of_nat (length s))%Z.
Proof.
  intros Hrange. induction s as [|item rest IH]; intros Hall; [cbn; lia|].
  destruct (Hall item) as [[wi vi] Hitem]; [by left|].
  destruct (Hrange item wi vi Hitem) as [Hwi _].
  assert (∀ x, x ∈ rest → is_Some (items !! x)) as Hrest.
  { intros x Hx. apply Hall. by right. }
  specialize (IH Hrest).
  change (total_weight items (item :: rest))
    with (item_weight items item + total_weight items rest)%Z.
  assert (item_weight items item = wi) as ->.
  { unfold item_weight. by rewrite Hitem. }
  cbn [length]. lia.
Qed.

Lemma over_weight_total (items : catalog) (s : pyset) (w : Q) :
  (w == inject_Z (total_weight items s))%Q →
  Qltb MAX_WEIGHT w = bool_decide (50 < total_weight items s)%Z.
Proof.
  intros Hw. destruct (bool_decide _) eqn:Hdec.
  - apply bool_decide_eq_true in Hdec. apply Qltb_lt. rewrite Hw.
    change MAX_WEIGHT with (inject_Z 50). by rewrite <- Zlt_Qlt.
  - apply bool_decide_eq_false in Hdec. apply Qltb_ge. rewrite Hw.
    change MAX_WEIGHT with (inject_Z 50). rewrite <- Zle_Qle. lia.
Qed.

(** The members of a duplicate-free individual made of catalog ids are at
    most [NBR_ITEMS]. *)
Lemma valid_ids_length (s : pyset) :
  NoDup s → valid_ids s → length s ≤ NBR_ITEMS.
Proof.
  intros Hnd Hval.
  assert (length s ≤ length (seq 0 NBR_ITEMS)) as Hle.
  { apply submseteq_length, NoDup_submseteq; [done|].
    intros x Hx. apply elem_of_seq. specialize (Hval x Hx). lia. }
  by rewrite length_seq in Hle.
Qed.

(** What [evalKnapsack] returns, by cases on the integer weight sum. *)
Lemma evalKnapsack_by_total (items : catalog) (s : pyset) :
  (∀ x, x ∈ s → is_Some (items !! x)) →
  ∃ w v, knapsack_sums items s 0 0 = Some (w, v) ∧
         (w == inject_Z (total_weight items s))%Q ∧
         evalKnapsack items s
         = if bool_decide (MAX_ITEM < length s)
              || bool_decide (50 < total_weight items s)%Z
           then Some (10000%Q, 0%Q) else Some (w, v).
Proof.
  intros Hall. destruct (knapsack_sums_total items s 0 0 Hall) as (w & v & Hrun & Hw).
  rewrite Qplus_0_l in Hw.
  exists w, v. split; [done|]. split; [done|].
  unfold evalKnapsack. rewrite Hrun. by rewrite (over_weight_total items s w Hw).
Qed.

Lemma feasible_not_sentinel (items : catalog) (s : pyset) (w v : Q) :
  (w == inject_Z (total_weight items s))%Q → ¬ (50 < total_weight items s)%Z →
  (w, v) ≠ (10000%Q, 0%Q).
Proof.
  intros Hw Hle [= -> _]. unfold Qeq in Hw. cbn in Hw. lia.
Qed.

Lemma missing_or_defined (items : catalog) (s : pyset) :
  (∃ x, x ∈ s ∧ items !! x = None) ∨ (∀ x, x ∈ s → is_Some (items !! x)).
Proof.
  destruct (decide (Forall (λ x, is_Some (items !! x)) s)) as [Hall|Hnot].
  - right. by apply Forall_forall.
  - left. apply not_Forall_Exists in Hnot; [|apply _].
    apply Exists_exists in Hnot as (x & Hx & Hnone). exists x. split; [done|].
    by apply eq_None_not_Some.
Qed.

(** X1.  An id without a catalog entry makes the evaluation raise
    (KeyError), whatever else the individual holds. *)
Theorem evalKnapsack_missing_key (items : catalog) (s : pyset) (x : nat) :
  x ∈ s → items !! x = None → evalKnapsack items s = None.
Proof.
  intros Hx Hnone. unfold evalKnapsack.
  by rewrite (knapsack_sums_missing items s x 0 0 Hx Hnone).
Qed.

Lemma evalKnapsack_missing_key_witness : evalKnapsack heavy_items [0; 20] = None.
Proof.
  apply (evalKnapsack_missing_key heavy_items [0; 20] 20).
  - apply (bool_decide_unpack (20 ∈ [0; 20])). vm_compute. exact I.
  - reflexivity.
Defined.

(** X2.  On an individual whose ids all have a catalog entry the
    evaluation returns; it returns the sentinel when the individual has more
    than MAX_ITEM members or its integer weight sum exceeds 50, and otherwise
    a weight equal to that integer sum. *)
Theorem evalKnapsack_integer_sum (items : catalog) (s : pyset) :
  (∀ x, x ∈ s → is_Some (items !! x)) →
  ∃ w v, evalKnapsack items s = Some (w, v) ∧
    (((MAX_ITEM < length s ∨ (50 < total_weight items s)%Z) ∧
      (w, v) = (10000%Q, 0%Q)) ∨
     (length s ≤ MAX_ITEM ∧ (total_weight items s ≤ 50)%Z ∧
      (w == inject_Z (total_weight items s))%Q ∧ (w, v) ≠ (10000%Q, 0%Q))).
Proof.
  intros Hall. destruct (evalKnapsack_by_total items s Hall) as (w & v & _ & Hw & ->).
  destruct (bool_decide (MAX_ITEM < length s)) eqn:Hn;
    [|destruct (bool_decide (50 < total_weight items s)%Z) eqn:Ht]; cbn.
  - apply bool_decide_eq_true in Hn. eexists _, _. split; [done|]. left. auto.
  - apply bool_decide_eq_true in Ht. eexists _, _. split; [done|]. left. auto.
  - apply bool_decide_eq_false in Hn, Ht. exists w, v. split; [done|]. right.
    split_and!; [lia | lia | done | by eapply feasible_not_sentinel].
Qed.

Lemma evalKnapsack_integer_sum_witness :
  ∃ w v, evalKnapsack heavy_items [0; 1; 2] = Some (w, v) ∧
    (((MAX_ITEM < length [0; 1; 2] ∨ Z.lt 50 (total_weight heavy_items [0; 1; 2])) ∧
      (w, v) = (10000%Q, 0%Q)) ∨
     (length [0; 1; 2] ≤ MAX_ITEM ∧ Z.le (total_weight heavy_items [0; 1; 2]) 50 ∧
      Qeq w (inject_Z (total_weight heavy_items [0; 1; 2])) ∧
      (w, v) ≠ (10000%Q, 0%Q))).
Proof.
  apply (evalKnapsack_integer_sum heavy_items [0; 1; 2]).
  intros x Hx.
  apply elem_of_cons in Hx as [->|Hx]; [by eexists|].
  apply elem_of_cons in Hx as [->|Hx]; [by eexists|].
  apply list_elem_of_singleton in Hx as ->. by eexists.
Defined.

(** X3.  A duplicate-free individual made of catalog ids has at most
    NBR_ITEMS members, fewer than MAX_ITEM: the item-count test never fires
    and the sentinel is returned exactly when the integer weight sum exceeds
    50. *)
Theorem evalKnapsack_item_limit_unreachable (items : catalog) (s : pyset) :
  catalog_covers items → NoDup s → valid_ids s →
  length s ≤ NBR_ITEMS ∧ ¬ MAX_ITEM < length s ∧
  (evalKnapsack items s = Some (10000%Q, 0%Q) ↔ (50 < total_weight items s)%Z).
Proof.
  intros Hcov Hnd Hval. pose proof (valid_ids_length s Hnd Hval) as Hlen.
  assert (¬ MAX_ITEM < length s) as Hn by (unfold MAX_ITEM, NBR_ITEMS in *; lia).
  split; [done|]. split; [done|].
  destruct (evalKnapsack_by_total items s) as (w & v & _ & Hw & ->).
  { intros x Hx. by apply Hcov, Hval. }
  rewrite (bool_decide_eq_false_2 _ Hn). cbn.
  destruct (bool_decide (50 < total_weight items s)%Z) eqn:Ht.
  - apply bool_decide_eq_true in Ht. done.
  - apply bool_decide_eq_false in Ht. split; [|done].
    intros Heq. exfalso. apply (feasible_not_sentinel items s w v Hw Ht). congruence.
Qed.

Lemma evalKnapsack_item_limit_unreachable_witness :
  length (seq 0 6) ≤ NBR_ITEMS ∧ ¬ MAX_ITEM < length (seq 0 6) ∧
  (evalKnapsack heavy_items (seq 0 6) = Some (10000%Q, 0%Q)
   ↔ Z.lt 50 (total_weight heavy_items (seq 0 6))).
Proof.
  apply (evalKnapsack_item_limit_unreachable heavy_items (seq 0 6)).
  - intros i Hi. unfold NBR_ITEMS in Hi.
    do 20 (destruct i as [|i]; [by eexists|]). lia.
  - apply (bool_decide_unpack (NoDup (seq 0 6))). vm_compute. exact I.
  - intros x Hx. apply elem_of_seq in Hx. unfold NBR_ITEMS. lia.
Defined.

Lemma evalKnapsack_raises (items : catalog) (s : pyset) (x : nat) :
  x ∈ s → items !! x = None → evalKnapsack items s = None.
Proof.
  intros Hx Hnone. unfold evalKnapsack.
  by rewrite (knapsack_sums_missing items s x 0 0 Hx Hnone).
Qed.

(** X4.  Two iteration orders of the same members evaluate alike: both
    raise or neither does, both get the sentinel or neither does, and the
    returned weights are equal numbers.  (The value is a float sum and may
    depend on the order of the additions; nothing is stated about it.) *)
Theorem evalKnapsack_order_free (items : catalog) (s t : pyset) :
  s ≡ₚ t →
  (evalKnapsack items s = None ↔ evalKnapsack items t = None) ∧
  (evalKnapsack items s = Some (10000%Q, 0%Q)
   ↔ evalKnapsack items t = Some (10000%Q, 0%Q)) ∧
  (∀ w1 v1 w2 v2,
     evalKnapsack items s = Some (w1, v1) → evalKnapsack items t = Some (w2, v2) →
     (w1 == w2)%Q).
Proof.
  intros Hperm. destruct (missing_or_defined items s) as [(x & Hx & Hnone)|Hall].
  - assert (x ∈ t) as Hx' by by rewrite <- Hperm.
    rewrite (evalKnapsack_raises items s x Hx Hnone),
      (evalKnapsack_raises items t x Hx' Hnone).
    split_and!; [done | done | intros; done].
  - assert (∀ x, x ∈ t → is_Some (items !! x)) as Hall'.
    { intros x Hx. apply Hall. by rewrite Hperm. }
    destruct (evalKnapsack_by_total items s Hall) as (w1 & v1 & _ & Hw1 & ->).
    destruct (evalKnapsack_by_total items t Hall') as (w2 & v2 & _ & Hw2 & ->).
    rewrite <- (total_weight_perm items s t Hperm) in *.
    rewrite <- (Permutation_length Hperm).
    destruct (bool_decide (MAX_ITEM < length s)) eqn:Hn;
      [|destruct (bool_decide (50 < total_weight items s)%Z) eqn:Ht]; cbn.
    + split_and!; [done | done |]. intros ???? [= <- _] [= <- _]. reflexivity.
    + split_and!; [done | done |]. intros ???? [= <- _] [= <- _]. reflexivity.
    + apply bool_decide_eq_false in Ht. split_and!.
      * done.
      * split; intros Heq; exfalso.
        -- apply (feasible_not_sentinel items s w1 v1 Hw1 Ht). congruence.
        -- apply (feasible_not_sentinel items s w2 v2 Hw2 Ht). congruence.
      * intros ???? [= <- _] [= <- _]. by rewrite Hw1, Hw2.
Qed.

Lemma evalKnapsack_order_free_witness :
  (evalKnapsack heavy_items [0; 1; 2] = None
   ↔ evalKnapsack heavy_items [2; 0; 1] = None) ∧
  (evalKnapsack heavy_items [0; 1; 2] = Some (10000%Q, 0%Q)
   ↔ evalKnapsack heavy_items [2; 0; 1] = Some (10000%Q, 0%Q)) ∧
  (∀ w1 v1 w2 v2,
     evalKnapsack heavy_items [0; 1; 2] = Some (w1, v1) →
     evalKnapsack heavy_items [2; 0; 1] = Some (w2, v2) →
     Qeq w1 w2).
Proof.
  apply (evalKnapsack_order_free heavy_items [0; 1; 2] [2; 0; 1]).
  apply (bool_decide_unpack ([0; 1; 2] ≡ₚ [2; 0; 1])). vm_compute. exact I.
Defined.

(** ** The catalog and the initial population *)

Lemma NoDup_set_of (l : list nat) : NoDup (set_of l).
Proof.
  unfold set_of.
  assert (∀ acc, NoDup acc → NoDup (foldl (λ s x, set_add x s) acc l)) as Hgen.
  { induction l as [|x l IH]; intros acc Hacc; cbn; [done|].
    by apply IH, NoDup_set_add. }
  apply Hgen, NoDup_nil_2.
Qed.

Lemma length_set_add (x : nat) (s : pyset) : length (set_add x s) ≤ S (length s).
Proof.
  unfold set_add. case_decide; [lia|]. rewrite length_app. cbn. lia.
Qed.

Lemma length_set_of (l : list nat) : length (set_of l) ≤ length l.
Proof.
  unfold set_of.
  assert (∀ acc, length (foldl (λ s x, set_add x s) acc l) ≤ length acc + length l)
    as Hgen.
  { induction l as [|x l IH]; intros acc; cbn; [lia|].
    etrans; [apply IH|]. pose proof (length_set_add x acc). lia. }
  apply (Hgen []).
Qed.

Lemma set_of_nonempty (l : list nat) : l ≠ [] → 1 ≤ length (set_of l).
Proof.
  intros Hne. destruct l as [|x l]; [done|].
  assert (x ∈ set_of (x :: l)) as Hx by (apply elem_of_set_of; by left).
  destruct (set_of (x :: l)); [by apply elem_of_nil in Hx | cbn; lia].
Qed.

Section CatalogProps.
Context {G : Type} `{RandomGen G}.

Lemma random_randint_succeeds (a b : Z) :
  (a ≤ b)%Z → succeeds (random_randint a b) (λ r, (a ≤ r ≤ b)%Z).
Proof.
  intros Hab. unfold random_randint. eapply succeeds_bind.
  - apply (random_randrange_succeeds (Z.to_nat (b + 1 - a))). lia.
  - intros k Hk. cbn beta in Hk. apply succeeds_ret. lia.
Qed.

Lemma random_uniform_succeeds_0_100 :
  succeeds (random_uniform 0 100) (λ r, (0 <= r)%Q ∧ (r < 100)%Q).
Proof.
  intros g. unfold random_uniform, bind, random_random.
  pose proof (gen_random_unit g) as [Hlo Hhi].
  destruct (gen_random g) as [u g']. cbn [fst] in Hlo, Hhi.
  eexists _, _. split; [reflexivity|]. cbn beta. split; lra.
Qed.

Lemma fill_items_spec (range : list nat) (items : catalog) :
  succeeds (fill_items range items)
    (λ items',
       (∀ i, is_Some (items' !! i) ↔ i ∈ range ∨ is_Some (items !! i)) ∧
       (∀ i w v, items' !! i = Some (w, v) →
          items !! i = Some (w, v) ∨
          ((1 ≤ w ≤ 10)%Z ∧ (0 <= v)%Q ∧ (v < 100)%Q))).
Proof.
  revert items. induction range as [|i range IH]; intros items; cbn [fill_items].
  - apply succeeds_ret. split.
    + intros i. rewrite elem_of_nil. tauto.
    + intros i w v Hi. by left.
  - eapply succeeds_bind; [apply (random_randint_succeeds 1 10); lia|].
    intros w Hw. eapply succeeds_bind; [apply random_uniform_succeeds_0_100|].
    intros v Hv. eapply succeeds_weaken; [apply IH|].
    intros items' [Hdom Hval]. split.
    + intros j. rewrite Hdom, elem_of_cons.
      destruct (decide (j = i)) as [->|Hne].
      * rewrite lookup_insert_eq. split; [auto|]. intros _. right. by eexists.
      * rewrite lookup_insert_ne by done. split; [tauto|].
        intros [[?|?]|?]; [done | tauto | tauto].
    + intros j w' v' Hj. destruct (Hval j w' v' Hj) as [Hold|?]; [|by right].
      destruct (decide (j = i)) as [->|Hne].
      * rewrite lookup_insert_eq in Hold. injection Hold as <- <-. by right.
      * rewrite lookup_insert_ne in Hold by done. by left.
Qed.

Lemma module_items_spec :
  ∃ items, module_items = Some items ∧
           (∀ i, is_Some (items !! i) ↔ i < NBR_ITEMS) ∧
           catalog_in_range items.
Proof.
  unfold module_items.
  destruct (fill_items_spec (seq 0 NBR_ITEMS) ∅ (gen_seed 64))
    as (items & g' & Hrun & Hdom & Hval).
  exists items. rewrite Hrun. split; [done|]. split.
  - intros i. rewrite Hdom, elem_of_seq, lookup_empty, is_Some_alt. split.
    + intros [?|[]]. lia.
    + intros ?. left. lia.
  - intros i w v Hi. destruct (Hval i w v Hi) as [Hold|?]; [|done].
    by rewrite lookup_empty in Hold.
Qed.

Lemma toolbox_individual_spec :
  succeeds toolbox_individual
    (λ ind, fitness ind = Unevaluated ∧ NoDup (genome ind) ∧
            1 ≤ length (genome ind) ≤ IND_INIT_SIZE ∧ valid_ids (genome ind)).
Proof.
  unfold toolbox_individual. eapply succeeds_bind.
  - apply initRepeat_succeeds. apply random_randrange_succeeds. unfold NBR_ITEMS. lia.
  - intros l [Hlen Hl]. apply succeeds_ret. cbn.
    split; [done|]. split; [apply NoDup_set_of|]. split.
    + split.
      * apply set_of_nonempty. intros ->. unfold IND_INIT_SIZE in Hlen. done.
      * rewrite <- Hlen. apply length_set_of.
    + intros x Hx. rewrite elem_of_set_of in Hx.
      by apply (proj1 (Forall_forall _ _) Hl).
Qed.

End CatalogProps.

Section CatalogClaims.
Context {G : Type} `{RandomGen G}.

(** X5.  The catalog the module builds on import exists (no draw raises),
    has an entry for exactly the ids 0 .. NBR_ITEMS-1, and every entry has an
    integer weight in 1 .. 10 and a value in [0, 100). *)
Theorem module_items_catalog :
  ∃ items, module_items = Some items ∧
           (∀ i, is_Some (items !! i) ↔ i < NBR_ITEMS) ∧
           (∀ i w v, items !! i = Some (w, v) →
              (1 ≤ w ≤ 10)%Z ∧ (0 <= v)%Q ∧ (v < 100)%Q).
Proof. exact module_items_spec. Qed.

(** X6.  [toolbox.population(n)] returns from every generator state with
    [n] individuals (none for a non-positive [n]); each has no fitness yet and
    a duplicate-free genome of between 1 and IND_INIT_SIZE ids, all below
    NBR_ITEMS. *)
Theorem toolbox_population_shape (n : Z) (g : G) :
  ∃ pop g', toolbox_population n g = Some (pop, g') ∧
    length pop = Z.to_nat n ∧
    Forall (λ ind, fitness ind = Unevaluated ∧ NoDup (genome ind) ∧
                   1 ≤ length (genome ind) ≤ IND_INIT_SIZE ∧
                   valid_ids (genome ind)) pop.
Proof.
  destruct (initRepeat_succeeds toolbox_individual _ (Z.to_nat n)
              toolbox_individual_spec g) as (pop & g' & Hrun & Hlen & Hpop).
  by exists pop, g'.
Qed.

(** X7.  Every individual of an initial population is feasible under the
    module's catalog: its evaluation returns, with a weight between 1 and
    MAX_WEIGHT, never the sentinel. *)
Theorem initial_population_feasible (n : Z) (g : G) :
  ∃ items pop g',
    module_items = Some items ∧ toolbox_population n g = Some (pop, g') ∧
    Forall (λ ind, ∃ w v, evalKnapsack items (genome ind) = Some (w, v) ∧
                          (1 <= w)%Q ∧ (w <= MAX_WEIGHT)%Q ∧
                          (w, v) ≠ (10000%Q, 0%Q)) pop.
Proof.
  destruct module_items_spec as (items & Hitems & Hdom & Hrange).
  destruct (initRepeat_succeeds toolbox_individual _ (Z.to_nat n)
              toolbox_individual_spec g) as (pop & g' & Hrun & _ & Hpop).
  exists items, pop, g'. split; [done|]. split; [done|].
  eapply Forall_impl; [exact Hpop|]. cbn beta.
  intros ind (_ & _ & [Hlo Hhi] & Hval).
  assert (∀ x, x ∈ genome ind → is_Some (items !! x)) as Hall.
  { intros x Hx. by apply Hdom, Hval. }
  pose proof (total_weight_bounds items (genome ind) Hrange Hall) as [Htlo Hthi].
  unfold IND_INIT_SIZE in Hhi.
  assert (¬ (50 < total_weight items (genome ind))%Z) as Ht by lia.
  destruct (evalKnapsack_by_total items (genome ind) Hall) as (w & v & _ & Hw & ->).
  rewrite (bool_decide_eq_false_2 (MAX_ITEM < _)) by (unfold MAX_ITEM; lia).
  rewrite (bool_decide_eq_false_2 _ Ht). cbn.
  exists w, v. split; [done|]. split_and!.
  - rewrite Hw. change 1%Q with (inject_Z 1). rewrite <- Zle_Qle. lia.
  - rewrite Hw. change MAX_WEIGHT with (inject_Z 50). rewrite <- Zle_Qle. lia.
  - by eapply feasible_not_sentinel.
Qed.

End CatalogClaims.

(** ** Crossover on special pairs *)

Lemma set_iand_disjoint (s t : pyset) : ids s ## ids t → set_iand s t = [].
Proof.
  intros Hdisj. unfold set_iand. apply filter_none, Forall_forall.
  intros x Hx Hx'. apply (Hdisj x); by apply elem_of_ids.
Qed.

Lemma set_ixor_same_ids (s t : pyset) : ids s = ids t → set_ixor s t = [].
Proof.
  intros Heq. unfold set_ixor.
  rewrite !filter_none; [done|..]; apply Forall_forall; intros x Hx Hn; apply Hn.
  - by rewrite <- elem_of_ids, Heq, elem_of_ids.
  - by rewrite <- elem_of_ids, <- Heq, elem_of_ids.
Qed.

(** X8.  When one object is passed as both parents it ends up empty,
    whatever it held; no other object of the store changes. *)
Theorem cxSet_alias_empties (h : store) (ind : nat) (a : pyset) :
  h !! ind = Some a →
  ∃ h' : store,
    cxSet ind ind h = Some ((ind, ind), h') ∧ h' !! ind = Some [] ∧
    ∀ j, j ≠ ind → h' !! j = h !! j.
Proof.
  intros Ha. exists (<[ind := []]> h).
  split; [by apply (cxSet_same_object h ind a)|]. split; [by rewrite lookup_insert_eq|].
  intros j Hj. by rewrite lookup_insert_ne.
Qed.

Lemma cxSet_alias_empties_witness :
  ∃ h' : store,
    cxSet 0 0 (<[0 := [1; 2; 3]]> ∅) = Some ((0, 0), h') ∧ h' !! 0 = Some [] ∧
    ∀ j, j ≠ 0 → h' !! j = (<[0 := [1; 2; 3]]> ∅ : store) !! j.
Proof.
  apply (cxSet_alias_empties (<[0 := [1; 2; 3]]> ∅) 0 [1; 2; 3]). reflexivity.
Defined.

(** X9.  Crossing the same pair twice leaves the first object empty and
    the second holding the union of the two original parents. *)
Theorem cxSet_twice (h : store) (ind1 ind2 : nat) (a b : pyset) :
  ind1 ≠ ind2 → h !! ind1 = Some a → h !! ind2 = Some b →
  ∃ (h2 : store) (c2 : pyset),
    (cxSet ind1 ind2 h ≫= λ '(_, h1), cxSet ind1 ind2 h1) = Some ((ind1, ind2), h2) ∧
    h2 !! ind1 = Some [] ∧ h2 !! ind2 = Some c2 ∧ ids c2 = ids a ∪ ids b.
Proof.
  intros Hne Ha Hb. rewrite (cxSet_distinct h ind1 ind2 a b Hne Ha Hb).
  cbn [mbind option_bind].
  set (h1 := <[ind2 := set_ixor b a]> (<[ind1 := set_iand a b]> h)).
  assert (h1 !! ind1 = Some (set_iand a b)) as H1.
  { unfold h1. by rewrite lookup_insert_ne, lookup_insert_eq. }
  assert (h1 !! ind2 = Some (set_ixor b a)) as H2.
  { unfold h1. by rewrite lookup_insert_eq. }
  rewrite (cxSet_distinct h1 ind1 ind2 _ _ Hne H1 H2).
  assert (ids (set_iand a b) ## ids (set_ixor b a)) as Hdisj.
  { rewrite ids_set_iand, ids_set_ixor. set_solver. }
  rewrite (set_iand_disjoint _ _ Hdisj).
  eexists _, _. split; [done|].
  split; [by rewrite lookup_insert_ne, lookup_insert_eq|].
  split; [by rewrite lookup_insert_eq|].
  rewrite !ids_set_ixor, ids_set_iand. apply set_eq. intros x.
  destruct (decide (x ∈ ids a)), (decide (x ∈ ids b)); set_solver.
Qed.

Lemma cxSet_twice_witness :
  ∃ (h2 : store) (c2 : pyset),
    (cxSet 0 1 (<[1 := [2; 3; 4]]> (<[0 := [1; 2; 3]]> ∅))
       ≫= λ '(_, h1), cxSet 0 1 h1) = Some ((0, 1), h2) ∧
    h2 !! 0 = Some [] ∧ h2 !! 1 = Some c2 ∧
    ids c2 = ids [1; 2; 3] ∪ ids [2; 3; 4].
Proof.
  apply (cxSet_twice (<[1 := [2; 3; 4]]> (<[0 := [1; 2; 3]]> ∅)) 0 1).
  - lia.
  - reflexivity.
  - reflexivity.
Defined.

(** X10.  Two parents with the same members give one child with those
    members and one empty child; two parents without a common member give an
    empty first child and a second child holding all their members. *)
Theorem cxSet_special_parents (h : store) (ind1 ind2 : nat) (a b : pyset) :
  ind1 ≠ ind2 → h !! ind1 = Some a → h !! ind2 = Some b →
  ∃ (h' : store) (childA childB : pyset),
    cxSet ind1 ind2 h = Some ((ind1, ind2), h') ∧
    h' !! ind1 = Some childA ∧ h' !! ind2 = Some childB ∧
    (ids a = ids b → childA = a ∧ childB = []) ∧
    (ids a ## ids b → childA = [] ∧ ids childB = ids a ∪ ids b).
Proof.
  intros Hne Ha Hb.
  exists (<[ind2 := set_ixor b a]> (<[ind1 := set_iand a b]> h)),
    (set_iand a b), (set_ixor b a).
  split; [by apply cxSet_distinct|].
  split; [by rewrite lookup_insert_ne, lookup_insert_eq|].
  split; [by rewrite lookup_insert_eq|]. split.
  - intros Heq. split; [|by apply set_ixor_same_ids].
    unfold set_iand. apply filter_all, Forall_forall. intros x Hx.
    by rewrite <- elem_of_ids, <- Heq, elem_of_ids.
  - intros Hdisj. split; [by apply set_iand_disjoint|].
    rewrite ids_set_ixor. set_solver.
Qed.

Lemma cxSet_special_parents_witness :
  ∃ (h' : store) (childA childB : pyset),
    cxSet 0 1 (<[1 := [3; 1; 2]]> (<[0 := [1; 2; 3]]> ∅)) = Some ((0, 1), h') ∧
    h' !! 0 = Some childA ∧ h' !! 1 = Some childB ∧
    (ids [1; 2; 3] = ids [3; 1; 2] → childA = [1; 2; 3] ∧ childB = []) ∧
    (ids [1; 2; 3] ## ids [3; 1; 2] →
     childA = [] ∧ ids childB = ids [1; 2; 3] ∪ ids [3; 1; 2]).
Proof.
  apply (cxSet_special_parents (<[1 := [3; 1; 2]]> (<[0 := [1; 2; 3]]> ∅)) 0 1).
  - lia.
  - reflexivity.
  - reflexivity.
Defined.

(** ** Mutation never raises *)

Section MutationTotal.
Context {G : Type} `{RandomGen G}.

(** X11.  From every generator state [mutSet] returns: the guard keeps
    [random.choice] off an empty sequence and the removed id is a member.
    The result is duplicate-free, stays within the catalog ids when the
    individual was, and differs from the individual by nothing, by one
    removed member, or by one added id below NBR_ITEMS. *)
Theorem mutSet_never_raises (s : pyset) (g : G) :
  NoDup s →
  ∃ s' g', mutSet s g = Some (s', g') ∧ NoDup s' ∧
    (valid_ids s → valid_ids s') ∧
    (s' = s ∨
     (∃ x, x ∈ s ∧ ids s' = ids s ∖ {[x]} ∧ S (length s') = length s) ∨
     (∃ x, x < NBR_ITEMS ∧ (x ∉ s) ∧ ids s' = ids s ∪ {[x]} ∧
           length s' = S (length s))).
Proof.
  intros Hnd. destruct (Qltb (gen_random g).1 0.5) eqn:Hcoin.
  - destruct (decide (s = [])) as [->|Hne].
    + eexists _, _. split; [by apply mutSet_skip|]. split_and!; auto.
    + destruct (mutSet_remove s g Hcoin Hne) as (x & _ & Hin & Hrun).
      eexists _, _. split; [exact Hrun|]. split_and!.
      * by apply NoDup_filter.
      * intros Hval y [_ Hy]%list_elem_of_filter. by apply Hval.
      * right. left. exists x. split; [done|]. split.
        -- apply set_eq. intros y.
           rewrite elem_of_difference, elem_of_singleton, !elem_of_ids,
             list_elem_of_filter. tauto.
        -- by apply length_remove_member.
  - pose proof (gen_randbelow_lt NBR_ITEMS (gen_random g).2) as Hx.
    rewrite (mutSet_add s g Hcoin).
    set (x := (gen_randbelow NBR_ITEMS (gen_random g).2).1) in *.
    assert (x < NBR_ITEMS) as Hlt by (apply Hx; unfold NBR_ITEMS; lia).
    eexists _, _. split; [done|]. split_and!.
    + by apply NoDup_set_add.
    + by apply valid_ids_set_add.
    + destruct (decide (x ∈ s)) as [Hin|Hnin].
      * left. by apply set_add_member.
      * right. right. exists x. split_and!; [done | done | apply ids_set_add |].
        unfold set_add. rewrite decide_False by done. rewrite length_app. cbn. lia.
Qed.

End MutationTotal.

Lemma mutSet_never_raises_witness :
  ∃ s' g', mutSet (G := list nat) [3; 1; 2] [100; 1] = Some (s', g') ∧ NoDup s' ∧
    (valid_ids [3; 1; 2] → valid_ids s') ∧
    (s' = [3; 1; 2] ∨
     (∃ x, x ∈ [3; 1; 2] ∧ ids s' = ids [3; 1; 2] ∖ {[x]} ∧
           S (length s') = length [3; 1; 2]) ∨
     (∃ x, x < NBR_ITEMS ∧ (x ∉ [3; 1; 2]) ∧ ids s' = ids [3; 1; 2] ∪ {[x]} ∧
           length s' = S (length [3; 1; 2]))).
Proof.
  apply (mutSet_never_raises [3; 1; 2] [100; 1]).
  apply (bool_decide_unpack (NoDup [3; 1; 2])). vm_compute. exact I.
Defined.

(** ** Reading the metrics *)

(** X12.  With NGEN >= 0 the metrics line [max[NGEN]] raises (IndexError)
    exactly when the log holds at most NGEN records; otherwise the metrics
    are the [max] components of the record at index NGEN and the two series
    given to the plot have one entry per record. *)
Theorem main_finish_index (cfg : Config) (st : EvoState) :
  (0 ≤ NGEN cfg)%Z →
  (main_finish cfg st = None ↔ length (logbook st) ≤ Z.to_nat (NGEN cfg)) ∧
  (∀ out, main_finish cfg st = Some out →
     ∃ r, logbook st !! Z.to_nat (NGEN cfg) = Some r ∧
          out_metrics out = ((rec_max r).1, (rec_max r).2) ∧
          length (out_plot out).1 = length (logbook st) ∧
          length (out_plot out).2 = length (logbook st) ∧
          out_state out = st).
Proof.
  intros Hngen. unfold main_finish. rewrite py_index_nonneg by done.
  rewrite list_lookup_fmap.
  destruct (logbook st !! Z.to_nat (NGEN cfg)) as [r|] eqn:Hr; cbn.
  - split.
    + split; [done|]. intros Hlen. apply lookup_lt_Some in Hr. lia.
    + intros out [= <-]. exists r. cbn. by rewrite !length_map.
  - split; [|done]. split; [|done]. intros _. by apply lookup_ge_None.
Qed.

Lemma main_finish_index_witness :
  let st := {| population := []; halloffame := [];
               logbook := [ {| rec_gen := 0; rec_avg := (1, 0)%Q;
                               rec_min := (1, 0)%Q; rec_max := (1, 0)%Q |} ] |} in
  (main_finish main_config st = None
   ↔ length (logbook st) ≤ Z.to_nat (NGEN main_config)) ∧
  (∀ out, main_finish main_config st = Some out →
     ∃ r, logbook st !! Z.to_nat (NGEN main_config) = Some r ∧
          out_metrics out = ((rec_max r).1, (rec_max r).2) ∧
          length (out_plot out).1 = length (logbook st) ∧
          length (out_plot out).2 = length (logbook st) ∧
          out_state out = st).
Proof.
  intros st. apply (main_finish_index main_config st). cbn. lia.
Defined.
